(** * klee-native: memory bridge, syscall intercepts and pre-lifting

    A shallow embedding of three translation units of the repository:

    - [runtime/Native/OS/Linux/Intercepts.cpp]: the allocator intercepts
      ([Intercept_malloc], [Intercept_free], [Intercept_calloc],
      [Intercept_realloc], [Intercept_memalign]);
    - [lib/Core/SpecialFunctionHandler.cpp]: the width-specialised
      [__remill_read_memory_N] / [__remill_write_memory_N] handlers and the
      [fstat] / [stat] / [readdir] handlers with their indexed getters;
    - [lib/Core/PreLifter.cpp]: the two discovery passes, the batching of the
      trace list into workers, and the scan that reloads the cache directory.

    From [SpecialFunctionHandler.cpp] it also covers the handler table with
    [prepare], [bind], [handle] and the table's iterator, the
    [__kleemill_*] handlers that change and query the region table, and
    [llvm.ctpop.i32].

    Machine integers are [Z] with the wrap-around written out, C++ maps are
    stdpp's [gmap], vectors are lists, and every handler is a function from
    the state it touches to the state it leaves. *)

From Stdlib Require Import Ascii String Hexadecimal HexadecimalN HexadecimalString.
From stdpp Require Import gmap strings list numbers pretty.

Open Scope Z_scope.

(** ** Machine integers *)

(** [static_cast<uintN_t>(v)]: reduction modulo [2^N]. *)
Definition wrap (bits : Z) (v : Z) : Z := v `mod` 2 ^ bits.

(** [~static_cast<uintN_t>(0)]: the all-ones value of width [N]. *)
Definition all_ones (bits : Z) : Z := 2 ^ bits - 1.

(** The conversion of a [uint64_t] to [int] that a call makes when it
    passes one for the other: the low 32 bits, read as a signed number. *)
Definition static_cast_int (v : Z) : Z :=
  let low := wrap 32 v in
  if decide (low < 2 ^ 31) then low else low - 2 ^ 32.

(* ================================================================== *)
(** ** Allocator intercepts: [runtime/Native/OS/Linux/Intercepts.cpp] *)
(* ================================================================== *)

Module Intercepts.

(** [addr_t] is a 64-bit unsigned integer; [~0ULL] is [2^64 - 1]. *)
Definition kBadAddr : Z := all_ones 64.

Definition kReallocInternalPtr : Z := all_ones 64 - 1.
Definition kReallocTooBig : Z := all_ones 64 - 2.
Definition kReallocInvalidPtr : Z := all_ones 64 - 3.
Definition kReallocFreedPtr : Z := all_ones 64 - 4.

Definition kMallocTooBig : Z := all_ones 64 - 1.

(** How an intercept leaves: [intercept.SetReturn(memory, state, v)] writes
    [v] into the return register of the emulated call; [return memory]
    leaves the register alone, so that the real host routine runs (the
    "Falling back to real ..." branches); [klee_abort()] does not return. *)
Inductive Outcome : Type :=
| SetReturn (v : Z)
| ReturnMemory
| klee_abort.

#[global] Instance Outcome_eq_dec : EqDecision Outcome.
Proof. solve_decision. Defined.

(** The tracked allocator is only declared in this file ([extern "C"]); an
    intercept is therefore a program that may call it and continue with
    whatever it answers. *)
Inductive Intercept : Type :=
| Ret (o : Outcome)
| call_malloc_intercept (size : Z) (k : Z -> Intercept)
| call_free_intercept (ptr : Z) (k : bool -> Intercept)
| call_calloc_intercept (size : Z) (k : Z -> Intercept)
| call_realloc_intercept (ptr size : Z) (k : Z -> Intercept).

(** One entry per call that reaches the tracked allocator. *)
Inductive AllocCall : Type :=
| malloc_called (size : Z)
| free_called (ptr : Z)
| calloc_called (size : Z)
| realloc_called (ptr size : Z).

#[global] Instance AllocCall_eq_dec : EqDecision AllocCall.
Proof. solve_decision. Defined.

(** An implementation of the four [extern "C"] entry points over some
    representation [M] of the modelled [Memory]. *)
Record TrackedAllocator (M : Type) : Type := {
  malloc_intercept : M -> Z -> Z * M;
  free_intercept : M -> Z -> bool * M;
  calloc_intercept : M -> Z -> Z * M;
  realloc_intercept : M -> Z -> Z -> Z * M;
}.
Arguments malloc_intercept {M} _ _ _.
Arguments free_intercept {M} _ _ _.
Arguments calloc_intercept {M} _ _ _.
Arguments realloc_intercept {M} _ _ _ _.

(** What running an intercept against an allocator leaves behind. *)
Record Run (M : Type) : Type := {
  outcome : Outcome;
  memory_after : M;
  calls : list AllocCall;
}.
Arguments outcome {M} _.
Arguments memory_after {M} _.
Arguments calls {M} _.

Fixpoint run {M : Type} (a : TrackedAllocator M) (p : Intercept) (memory : M)
    (trace : list AllocCall) : Run M :=
  match p with
  | Ret o => {| outcome := o; memory_after := memory; calls := trace |}
  | call_malloc_intercept size k =>
      let '(ptr, memory') := malloc_intercept a memory size in
      run a (k ptr) memory' (trace ++ [malloc_called size])
  | call_free_intercept ptr k =>
      let '(ok, memory') := free_intercept a memory ptr in
      run a (k ok) memory' (trace ++ [free_called ptr])
  | call_calloc_intercept size k =>
      let '(ptr, memory') := calloc_intercept a memory size in
      run a (k ptr) memory' (trace ++ [calloc_called size])
  | call_realloc_intercept ptr size k =>
      let '(new_ptr, memory') := realloc_intercept a memory ptr size in
      run a (k new_ptr) memory' (trace ++ [realloc_called ptr size])
  end.

(** [intercept.TryGetArgs] either fills the argument variables ([Some]) or
    fails ([None]). *)

Definition Intercept_malloc (args : option Z) : Intercept :=
  match args with
  | None => Ret (SetReturn 0)
  | Some alloc_size =>
      if decide (alloc_size = 0) then Ret (SetReturn 0)
      else
        call_malloc_intercept alloc_size (fun ptr =>
          if decide (ptr = kBadAddr) then Ret ReturnMemory
          else if decide (ptr = kMallocTooBig) then Ret ReturnMemory
          else Ret (SetReturn ptr))
  end.

Definition Intercept_free (args : option Z) : Intercept :=
  match args with
  | None => Ret (SetReturn 0)
  | Some address =>
      call_free_intercept address (fun ok =>
        if negb ok then Ret ReturnMemory else Ret (SetReturn 0))
  end.

Definition Intercept_calloc (args : option (Z * Z)) : Intercept :=
  match args with
  | None => Ret (SetReturn 0)
  | Some (num, size) =>
      let alloc_size := wrap 64 (num * size) in
      if decide (alloc_size = 0) then Ret (SetReturn 0)
      else
        call_calloc_intercept alloc_size (fun ptr =>
          if decide (ptr = kBadAddr) then Ret ReturnMemory
          else if decide (ptr = kMallocTooBig) then Ret ReturnMemory
          else Ret (SetReturn ptr))
  end.

(** The chain of comparisons on [new_ptr] that ends [Intercept_realloc]. *)
Definition realloc_dispatch (new_ptr : Z) : Outcome :=
  if decide (new_ptr = kBadAddr) then ReturnMemory
  else if decide (kReallocInternalPtr = new_ptr) then klee_abort
  else if decide (kReallocTooBig = new_ptr) then klee_abort
  else if decide (kReallocInvalidPtr = new_ptr) then klee_abort
  else if decide (kReallocFreedPtr = new_ptr) then klee_abort
  else SetReturn new_ptr.

Definition Intercept_realloc (args : option (Z * Z)) : Intercept :=
  match args with
  | None => Ret (SetReturn 0)
  | Some (ptr, alloc_size) =>
      if decide (ptr = 0) then
        call_malloc_intercept alloc_size (fun new_ptr =>
          Ret (realloc_dispatch new_ptr))
      else
        call_realloc_intercept ptr alloc_size (fun new_ptr =>
          Ret (realloc_dispatch new_ptr))
  end.

Definition Intercept_memalign (args : option (Z * Z)) : Intercept :=
  match args with
  | None => Ret (SetReturn 0)
  | Some (alignment, size) =>
      call_malloc_intercept size (fun ptr =>
        if decide (ptr = kBadAddr) then Ret ReturnMemory
        else Ret (SetReturn ptr))
  end.

(** The value the tracked allocator hands to [Intercept_realloc]: the source
    asks [malloc_intercept] when [ptr] is null and [realloc_intercept]
    otherwise. *)
Definition tracked_realloc_result {M : Type} (a : TrackedAllocator M)
    (memory : M) (ptr alloc_size : Z) : Z :=
  if decide (ptr = 0) then (malloc_intercept a memory alloc_size).1
  else (realloc_intercept a memory ptr alloc_size).1.

(** A tracked allocator with fixed answers, for evaluating the intercepts:
    it never touches the memory it is given. *)
Definition fixed_allocator (malloc_answer realloc_answer : Z)
    (free_answer : bool) : TrackedAllocator unit :=
  {| malloc_intercept := fun m _ => (malloc_answer, m);
     free_intercept := fun m _ => (free_answer, m);
     calloc_intercept := fun m _ => (malloc_answer, m);
     realloc_intercept := fun m _ _ => (realloc_answer, m) |}.

End Intercepts.

(** ** Logging *)

(** A [LOG(ERROR)] or [LOG(INFO)] statement, by the text it starts with. *)
Inductive LogEntry : Type :=
| LOG_ERROR (message : string)
| LOG_INFO (message : string).

#[global] Instance LogEntry_eq_dec : EqDecision LogEntry.
Proof. solve_decision. Defined.

(* ================================================================== *)
(** ** KLEE core types used by the handlers *)
(* ================================================================== *)

Module Klee.

(** [Expr::Width] constants. *)
Definition Bool : Z := 1.
Definition Int8 : Z := 8.
Definition Int16 : Z := 16.
Definition Int32 : Z := 32.
Definition Int64 : Z := 64.

(** The expression kinds the handlers distinguish: constants, reads of a
    symbolic array (named by [updates.root->name]), and compound nodes. *)
Inductive Expr : Type :=
| ConstantExpr (value : Z) (width : Z)
| ReadExpr (root : string) (index : Expr)
| ConcatExpr (l r : Expr)
| ExtractExpr (e : Expr) (offset width : Z)
| AddExpr (l r : Expr).

#[global] Instance Expr_eq_dec : EqDecision Expr.
Proof. solve_decision. Defined.

(** [ConstantExpr::create(v, w)] keeps the low [w] bits of [v]. *)
Definition ConstantExpr_create (v : Z) (w : Z) : Expr :=
  ConstantExpr (wrap w v) w.

(** [Expr::createPointer(v)], on a 64-bit target. *)
Definition createPointer (v : Z) : Expr := ConstantExpr_create v Int64.

Definition isa_ConstantExpr (e : Expr) : bool :=
  match e with ConstantExpr _ _ => true | _ => false end.

(** [llvm::dyn_cast<ConstantExpr>(e)->getZExtValue()]: the cast yields a
    null pointer on anything but a constant, and the call through it has no
    defined behaviour ([None]). *)
Definition getZExtValue (e : Expr) : option Z :=
  match e with ConstantExpr v _ => Some v | _ => None end.

(** [e->getKid(0)]. *)
Definition getKid0 (e : Expr) : option Expr :=
  match e with
  | ConstantExpr _ _ => None
  | ReadExpr _ index => Some index
  | ConcatExpr l _ => Some l
  | ExtractExpr e _ _ => Some e
  | AddExpr l _ => Some l
  end.

(** [dyn_cast<ReadExpr>(e)->updates.root->name]. *)
Definition ReadExpr_root_name (e : Expr) : option string :=
  match e with ReadExpr root _ => Some root | _ => None end.

(** [MemoryObject]: identity (the [id] drawn from [MemoryObject::counter]),
    address and name. *)
Record MemoryObject : Type := {
  id : nat;
  address : Z;
  name : string;
}.

#[global] Instance MemoryObject_eq_dec : EqDecision MemoryObject.
Proof. solve_decision. Defined.

(** KLEE's [ObjectState] and the solver-backed [Executor::toUnique] are used
    by the handlers but defined outside the files modelled here; they are an
    interface.  [read os offset width] and [write os offset value] are
    [ObjectState::read] and [ObjectState::write]; [toUnique] maps the path
    constraints and an expression to the expression the handler goes on
    with. *)
Class KleeCore : Type := {
  ObjectState : Type;
  ObjectState_new : MemoryObject -> ObjectState;
  read : ObjectState -> Z -> Z -> Expr;
  write : ObjectState -> Z -> Expr -> ObjectState;
  toUnique : list Expr -> Expr -> Expr;
}.

Section ExecutionState.
Context `{!KleeCore}.

(** [ExecutionState]: the path constraints, the symbolic objects
    ([symbolics], each paired with the name of its array), the objects bound
    in [addressSpace] (by object [id]) and the values bound to instruction
    results by [Executor::bindLocal] (by instruction). *)
Record ExecutionState : Type := {
  constraints : list Expr;
  symbolics : list (MemoryObject * string);
  addressSpace : gmap nat ObjectState;
  locals : gmap nat Expr;
}.

Definition bindLocal (target : nat) (value : Expr) (state : ExecutionState)
    : ExecutionState :=
  {| constraints := constraints state;
     symbolics := symbolics state;
     addressSpace := addressSpace state;
     locals := <[target := value]> (locals state) |}.

(** [state.addressSpace.findObject(mo)]; a null result makes the following
    [getWriteable] undefined. *)
Definition findObject (state : ExecutionState) (mo : MemoryObject)
    : option ObjectState :=
  addressSpace state !! id mo.

(** [getWriteable(mo, os)->write(0, value)]: the object bound to [mo] is
    replaced by its written copy. *)
Definition write_object (mo : MemoryObject) (os : ObjectState)
    (state : ExecutionState) : ExecutionState :=
  {| constraints := constraints state;
     symbolics := symbolics state;
     addressSpace := <[id mo := os]> (addressSpace state);
     locals := locals state |}.

End ExecutionState.

End Klee.

(* ================================================================== *)
(** ** The native address space *)
(* ================================================================== *)

Module Native.
Import Klee.

(** A lifted module is identified by the trace addresses whose functions it
    holds, in the order they were recorded. *)
Definition LLVMModule : Type := list Z.

(** [Native/Memory/AddressSpace.h] is not among the modelled files; the
    concrete backing store and the region table behind it are an interface.
    [TryRead store addr bits] is [Some v] when the [bits]-wide read succeeds
    and stores [v] through its out-parameter, and [None] when it returns
    false, in which case the caller's variable keeps its value (the spec's
    all-ones sentinel "on failure" rests on this); [TryWrite] returns the
    flag and the store it leaves; [FindRange_Name store addr] is
    [FindRange(addr).Name()]. *)
Class NativeMemory : Type := {
  ConcreteStore : Type;
  TryRead : ConcreteStore -> Z -> Z -> option Z;
  TryWrite : ConcreteStore -> Z -> Z -> Z -> bool * ConcreteStore;
  FindRange_Name : ConcreteStore -> Z -> string;
  IsSameMappedRange : ConcreteStore -> Z -> Z -> bool;
}.

Section AddressSpace.
Context `{!KleeCore, !NativeMemory}.

(** [symbolic_memory->objects]: overlay objects in iteration order. *)
Definition MemoryMap : Type := list (MemoryObject * ObjectState).

(** Modelled from the spec: the overlay map itself (KLEE's [MemoryMap]) is
    declared outside the modelled files. The spec has the bridge "create or
    reuse" the overlay at an address, with at most one overlay per address:
    inserting at an address that already has an overlay keeps the map. *)
Definition MemoryMap_insert (mo : MemoryObject) (os : ObjectState)
    (objects : MemoryMap) : MemoryMap :=
  if decide (Exists (λ p, address p.1 = address mo) objects) then objects
  else objects ++ [(mo, os)].

Record AddressSpace : Type := {
  concrete : ConcreteStore;
  symbolic_memory : MemoryMap;
  aot_traces : gmap string LLVMModule;
}.

Definition set_concrete (store : ConcreteStore) (mem : AddressSpace)
    : AddressSpace :=
  {| concrete := store;
     symbolic_memory := symbolic_memory mem;
     aot_traces := aot_traces mem |}.

Definition set_symbolic_memory (objects : MemoryMap) (mem : AddressSpace)
    : AddressSpace :=
  {| concrete := concrete mem;
     symbolic_memory := objects;
     aot_traces := aot_traces mem |}.

Definition set_aot_traces (traces : gmap string LLVMModule)
    (mem : AddressSpace) : AddressSpace :=
  {| concrete := concrete mem;
     symbolic_memory := symbolic_memory mem;
     aot_traces := traces |}.

End AddressSpace.

End Native.

(* ================================================================== *)
(** ** The host operating system, as far as the handlers call it *)
(* ================================================================== *)

Module Host.

(** The ten fields of [struct stat] that [set_up_fstat_struct] copies. *)
Record stat : Type := {
  st_dev : Z; st_ino : Z; st_mode : Z; st_nlink : Z; st_uid : Z;
  st_gid : Z; st_rdev : Z; st_size : Z; st_blksize : Z; st_blocks : Z;
}.

Record dirent : Type := {
  d_ino : Z; d_off : Z; d_reclen : Z; d_type : Z; d_name : string;
}.

#[global] Instance stat_eq_dec : EqDecision stat.
Proof. solve_decision. Defined.
#[global] Instance dirent_eq_dec : EqDecision dirent.
Proof. solve_decision. Defined.

(** Open descriptors, paths (by the address of the path string) and open
    directory streams (by the [DIR *] value, with the entries still to be
    returned). *)
Record t : Type := {
  descriptors : gmap Z stat;
  paths : gmap Z stat;
  dir_streams : gmap Z (list dirent);
}.

(** [fstat(fd, buf)]: [Some info] when it returns 0 and fills [*buf] with
    [info], [None] when it returns -1. *)
Definition fstat (h : t) (fd : Z) : option stat := descriptors h !! fd.

(** [stat(pathname, buf)]. *)
Definition stat_path (h : t) (pathname : Z) : option stat := paths h !! pathname.

(** [readdir(dir)]: the next entry (or a null pointer at the end of the
    stream) and the host with the stream advanced; [None] when [dir] is not
    an open stream. *)
Definition readdir (h : t) (dir : Z) : option (option dirent * t) :=
  match dir_streams h !! dir with
  | None => None
  | Some [] => Some (None, h)
  | Some (entry :: rest) =>
      Some (Some entry,
            {| descriptors := descriptors h; paths := paths h;
               dir_streams := <[dir := rest]> (dir_streams h) |})
  end.

Definition ENOENT : Z := 2.
Definition EFAULT : Z := 14.

End Host.

(* ================================================================== *)
(** ** [lib/Core/SpecialFunctionHandler.cpp] *)
(* ================================================================== *)

Module SpecialFunctionHandler.
Import Klee Native.

(** A C [switch] whose cases carry no [break]: control enters at the first
    label equal to the scrutinee and runs that body and every body after
    it; without a matching label (and without [default]) nothing runs. *)
Fixpoint switch_without_break {S : Type} (cases : list (Z * (S -> S)))
    (v : Z) (s : S) : S :=
  match cases with
  | [] => s
  | (label, body) :: rest =>
      if decide (v = label) then foldl (λ s c, c.2 s) s cases
      else switch_without_break rest v s
  end.

Section Handlers.
Context `{!KleeCore, !NativeMemory}.

(** The handler object and what it reaches besides the execution state:
    the executor's address spaces ([executor.Memory(i)]), KLEE's object
    counter, the two single-slot caches, [errno], the host and the log. *)
Record Handler : Type := {
  memories : gmap Z AddressSpace;
  counter : nat;
  fstat_vector : list Z;
  dirent_entry : Host.dirent;
  errno : Z;
  host : Host.t;
  log : list LogEntry;
}.

Definition set_memories (m : gmap Z AddressSpace) (self : Handler) : Handler :=
  {| memories := m; counter := counter self;
     fstat_vector := fstat_vector self; dirent_entry := dirent_entry self;
     errno := errno self; host := host self; log := log self |}.

Definition set_counter (n : nat) (self : Handler) : Handler :=
  {| memories := memories self; counter := n;
     fstat_vector := fstat_vector self; dirent_entry := dirent_entry self;
     errno := errno self; host := host self; log := log self |}.

Definition set_fstat_vector (v : list Z) (self : Handler) : Handler :=
  {| memories := memories self; counter := counter self;
     fstat_vector := v; dirent_entry := dirent_entry self;
     errno := errno self; host := host self; log := log self |}.

Definition set_dirent_entry (d : Host.dirent) (self : Handler) : Handler :=
  {| memories := memories self; counter := counter self;
     fstat_vector := fstat_vector self; dirent_entry := d;
     errno := errno self; host := host self; log := log self |}.

Definition set_errno (e : Z) (self : Handler) : Handler :=
  {| memories := memories self; counter := counter self;
     fstat_vector := fstat_vector self; dirent_entry := dirent_entry self;
     errno := e; host := host self; log := log self |}.

Definition set_host (h : Host.t) (self : Handler) : Handler :=
  {| memories := memories self; counter := counter self;
     fstat_vector := fstat_vector self; dirent_entry := dirent_entry self;
     errno := errno self; host := h; log := log self |}.

Definition LOG (entry : LogEntry) (self : Handler) : Handler :=
  {| memories := memories self; counter := counter self;
     fstat_vector := fstat_vector self; dirent_entry := dirent_entry self;
     errno := errno self; host := host self; log := log self ++ [entry] |}.

(** A handler returns the handler object and the execution state it
    leaves, or [None] where the C++ has no defined behaviour (a missing
    argument, a call through a null pointer, an out-of-range index, a read
    of an uninitialised variable). *)
Definition Handled : Type := option (Handler * ExecutionState).

(** [dyn_cast<ConstantExpr>(executor.toUnique(state, arguments[i]))
      ->getZExtValue()]. *)
Definition unique_uint (state : ExecutionState) (arguments : list Expr)
    (i : nat) : option Z :=
  e ← arguments !! i; getZExtValue (toUnique (constraints state) e).

Definition unique_val (state : ExecutionState) (arguments : list Expr)
    (i : nat) : option Expr :=
  toUnique (constraints state) <$> arguments !! i.

(** *** The stat and directory-entry caches *)

(** [set_up_fstat_struct]: [clear()] and ten [push_back]s, each through
    [static_cast<uint64_t>]. *)
Definition set_up_fstat_struct (info : Host.stat) (self : Handler) : Handler :=
  let v := [] in
  let v := v ++ [wrap 64 (Host.st_dev info)] in
  let v := v ++ [wrap 64 (Host.st_ino info)] in
  let v := v ++ [wrap 64 (Host.st_mode info)] in
  let v := v ++ [wrap 64 (Host.st_nlink info)] in
  let v := v ++ [wrap 64 (Host.st_uid info)] in
  let v := v ++ [wrap 64 (Host.st_gid info)] in
  let v := v ++ [wrap 64 (Host.st_rdev info)] in
  let v := v ++ [wrap 64 (Host.st_size info)] in
  let v := v ++ [wrap 64 (Host.st_blksize info)] in
  let v := v ++ [wrap 64 (Host.st_blocks info)] in
  set_fstat_vector v self.

(** [fstat_vector[index_uint]] is undefined past the end of the vector. *)
Definition handle_get_fstat_index (self : Handler) (state : ExecutionState)
    (target : nat) (arguments : list Expr) : Handled :=
  index_uint ← unique_uint state arguments 0;
  field ← fstat_vector self !! Z.to_nat index_uint;
  Some (self, bindLocal target (ConstantExpr_create field Int64) state).

(** The [switch] of [handle_get_dirent_index] assigns the local
    [unsigned field] (32 bits, uninitialised: [None]) in each of its four
    cases, none of which ends in [break]. *)
Definition dirent_field_cases (entry : Host.dirent)
    : list (Z * (option Z -> option Z)) :=
  [ (0, λ _, Some (wrap 32 (Host.d_ino entry)));
    (1, λ _, Some (wrap 32 (Host.d_off entry)));
    (2, λ _, Some (wrap 32 (Host.d_reclen entry)));
    (3, λ _, Some (wrap 32 (Host.d_type entry))) ].

Definition handle_get_dirent_index (self : Handler) (state : ExecutionState)
    (target : nat) (arguments : list Expr) : Handled :=
  index_uint ← unique_uint state arguments 0;
  field ← switch_without_break (dirent_field_cases (dirent_entry self))
             index_uint None;
  Some (self, bindLocal target (ConstantExpr_create field Int64) state).

(** [set_up_dirent_struct]: the four numeric fields and the name. *)
Definition set_up_dirent_struct (info : Host.dirent) (self : Handler)
    : Handler :=
  set_dirent_entry
    {| Host.d_ino := Host.d_ino info; Host.d_off := Host.d_off info;
       Host.d_reclen := Host.d_reclen info; Host.d_type := Host.d_type info;
       Host.d_name := Host.d_name info |} self.

Definition handle__my_readdir (self : Handler) (state : ExecutionState)
    (target : nat) (arguments : list Expr) : Handled :=
  dir_uint ← unique_uint state arguments 0;
  '(dirent, host') ← Host.readdir (host self) dir_uint;
  let self := set_host host' self in
  match dirent with
  | None =>
      Some (self, bindLocal target (ConstantExpr_create 0 Bool) state)
  | Some dirent =>
      let self := set_up_dirent_struct dirent self in
      Some (self, bindLocal target (ConstantExpr_create 1 Bool) state)
  end.

(** [fstat(fd_uint, stat)]: the call converts the 64-bit [fd_uint] to the
    [int] that [fstat] takes. *)
Definition handle__fstat64 (self : Handler) (state : ExecutionState)
    (target : nat) (arguments : list Expr) : Handled :=
  fd_uint ← unique_uint state arguments 0;
  stat_uint ← unique_uint state arguments 1;
  match Host.fstat (host self) (static_cast_int fd_uint) with
  | None =>
      let stat_ret := -1 in
      let state := bindLocal target (ConstantExpr_create stat_ret Int32) state in
      Some (set_errno Host.EFAULT self, state)
  | Some stat =>
      let stat_ret := 0 in
      let self := set_up_fstat_struct stat self in
      let state := bindLocal target (ConstantExpr_create stat_ret Int64) state in
      Some (set_errno 0 self, state)
  end.

Definition handle__stat64 (self : Handler) (state : ExecutionState)
    (target : nat) (arguments : list Expr) : Handled :=
  path_uint ← unique_uint state arguments 0;
  stat_uint ← unique_uint state arguments 1;
  match Host.stat_path (host self) path_uint with
  | None =>
      let stat_ret := -1 in
      let state := bindLocal target (ConstantExpr_create stat_ret Int32) state in
      Some (set_errno Host.EFAULT self, state)
  | Some stat_struct =>
      let stat_ret := 0 in
      let state := bindLocal target (ConstantExpr_create stat_ret Int64) state in
      Some (set_errno 0 self, state)
  end.

(** *** The memory bridge: reads *)

(** The part the four read handlers share: the local [value_uint] starts
    as [~static_cast<uintN_t>(0)], a failed [TryRead] is logged and leaves
    it as it is, and the handler binds it as an [N]-bit constant. *)
Definition read_concrete (bits : Z) (failure : string) (mem : AddressSpace)
    (addr_uint : Z) (self : Handler) (state : ExecutionState) (target : nat)
    : Handler * ExecutionState :=
  let value_uint := all_ones bits in
  match TryRead (concrete mem) addr_uint bits with
  | None =>
      (LOG (LOG_ERROR failure) self,
       bindLocal target (ConstantExpr_create value_uint bits) state)
  | Some value_uint =>
      (self, bindLocal target (ConstantExpr_create value_uint bits) state)
  end.

Definition handle__remill_read_8 (self : Handler) (state : ExecutionState)
    (target : nat) (arguments : list Expr) : Handled :=
  mem_uint ← unique_uint state arguments 0;
  addr_uint ← unique_uint state arguments 1;
  mem ← memories self !! mem_uint;
  Some (read_concrete 8 "Failed 1-byte read" mem addr_uint self state target).

Definition handle__remill_read_16 (self : Handler) (state : ExecutionState)
    (target : nat) (arguments : list Expr) : Handled :=
  mem_uint ← unique_uint state arguments 0;
  addr_uint ← unique_uint state arguments 1;
  mem ← memories self !! mem_uint;
  Some (read_concrete 16 "Failed 2-byte read" mem addr_uint self state target).

(** The inner loop of [handle__remill_read_32]: every symbolic object of the
    state named like the overlay has its first 32 bits read and bound. *)
Fixpoint read_symbolics (symbol : string)
    (symbolics : list (MemoryObject * string)) (state : ExecutionState)
    (target : nat) : option ExecutionState :=
  match symbolics with
  | [] => Some state
  | sym_pairs :: rest =>
      if decide (symbol = name sym_pairs.1) then
        writable_object ← findObject state sym_pairs.1;
        let value_val := read writable_object 0 32 in
        read_symbolics symbol rest (bindLocal target value_val state) target
      else read_symbolics symbol rest state target
  end.

(** The outer loop stops at the first overlay object whose address is the
    one read. *)
Definition find_overlay (objects : MemoryMap) (addr_uint : Z)
    : option (MemoryObject * ObjectState) :=
  find (λ pairs, bool_decide (address pairs.1 = addr_uint)) objects.

Definition handle__remill_read_32 (self : Handler) (state : ExecutionState)
    (target : nat) (arguments : list Expr) : Handled :=
  mem_uint ← unique_uint state arguments 0;
  addr_uint ← unique_uint state arguments 1;
  mem ← memories self !! mem_uint;
  match find_overlay (symbolic_memory mem) addr_uint with
  | Some pairs =>
      let symbol := name pairs.1 in
      state ← read_symbolics symbol (symbolics state) state target;
      Some (self, state)
  | None =>
      Some (read_concrete 32 "Failed 4-byte read" mem addr_uint self state
              target)
  end.

Definition handle__remill_read_64 (self : Handler) (state : ExecutionState)
    (target : nat) (arguments : list Expr) : Handled :=
  mem_uint ← unique_uint state arguments 0;
  addr_uint ← unique_uint state arguments 1;
  mem ← memories self !! mem_uint;
  Some (read_concrete 64 "Failed 8-byte read" mem addr_uint self state target).

(** The four read handlers, by width. *)
Definition read_handlers
    : list (Z * (Handler → ExecutionState → nat → list Expr → Handled)) :=
  [ (8, handle__remill_read_8); (16, handle__remill_read_16);
    (32, handle__remill_read_32); (64, handle__remill_read_64) ].

(** *** The memory bridge: writes *)

(** [mem->TryWrite(addr_uint, static_cast<uintN_t>(value_uint))] on the
    address space behind handle [mem_uint]. *)
Definition try_write (bits : Z) (mem_uint : Z) (mem : AddressSpace)
    (addr_uint value_uint : Z) (self : Handler) : bool * Handler :=
  let '(ok, store) := TryWrite (concrete mem) addr_uint bits
                        (wrap bits value_uint) in
  (ok, set_memories (<[mem_uint := set_concrete store mem]> (memories self))
         self).

(** The body shared by the 8-, 16- and 64-bit write handlers. *)
Definition write_concrete (bits : Z) (failure : string) (self : Handler)
    (state : ExecutionState) (target : nat) (arguments : list Expr) : Handled :=
  mem_val ← unique_val state arguments 0;
  mem_uint ← getZExtValue mem_val;
  addr_uint ← unique_uint state arguments 1;
  value_uint ← unique_uint state arguments 2;
  mem ← memories self !! mem_uint;
  let '(ok, self) := try_write bits mem_uint mem addr_uint value_uint self in
  if ok then Some (self, bindLocal target mem_val state)
  else Some (LOG (LOG_ERROR failure) self,
             bindLocal target (createPointer 0) state).

Definition handle__remill_write_64 := write_concrete 64 "Failed 8-byte write".
Definition handle__remill_write_16 := write_concrete 16 "Failed 2-byte write".
Definition handle__remill_write_8 := write_concrete 8 "Failed 1-byte write".

(** The loop of the symbolic branch of [handle__remill_write_32]: for every
    symbolic object named like the written value's array, a fresh overlay
    object at [addr_uint] is inserted into the overlay map and the value is
    written at offset 0 of that symbolic object. *)
Fixpoint write_symbolics (symbol : string) (addr_uint : Z) (value_val : Expr)
    (symbolics : list (MemoryObject * string)) (mem : AddressSpace)
    (fresh : nat) (state : ExecutionState)
    : option (AddressSpace * nat * ExecutionState) :=
  match symbolics with
  | [] => Some (mem, fresh, state)
  | pairs :: rest =>
      if decide (name pairs.1 = symbol) then
        let new_mem := {| id := fresh; address := addr_uint; name := symbol |} in
        let obj_state := ObjectState_new new_mem in
        let mem := set_symbolic_memory
                     (MemoryMap_insert new_mem obj_state (symbolic_memory mem))
                     mem in
        writable_object ← findObject state pairs.1;
        let state := write_object pairs.1 (write writable_object 0 value_val)
                       state in
        write_symbolics symbol addr_uint value_val rest mem (S fresh) state
      else
        write_symbolics symbol addr_uint value_val rest mem fresh state
  end.

Definition handle__remill_write_32 (self : Handler) (state : ExecutionState)
    (target : nat) (arguments : list Expr) : Handled :=
  mem_val ← unique_val state arguments 0;
  mem_uint ← getZExtValue mem_val;
  addr_uint ← unique_uint state arguments 1;
  value_val ← unique_val state arguments 2;
  mem ← memories self !! mem_uint;
  '(self, state) ←
    (if isa_ConstantExpr value_val then
       value_uint ← getZExtValue value_val;
       let '(ok, self) := try_write 32 mem_uint mem addr_uint value_uint self in
       if ok then Some (self, bindLocal target mem_val state)
       else Some (LOG (LOG_ERROR "Failed 4-byte write") self, state)
     else
       re ← getKid0 value_val;
       symbol ← ReadExpr_root_name re;
       '(mem, fresh, state) ←
         write_symbolics symbol addr_uint value_val (symbolics state) mem
           (counter self) state;
       Some (set_counter fresh
               (set_memories (<[mem_uint := mem]> (memories self)) self),
             state));
  Some (self, bindLocal target (createPointer 0) state).

End Handlers.

End SpecialFunctionHandler.

(* ================================================================== *)
(** ** Formatted stream input and output, as far as the pre-lifter uses it *)
(* ================================================================== *)

Module Stream.
Import Hexadecimal.

(** [std::isspace] in the C locale. *)
Definition is_space (c : ascii) : bool :=
  bool_decide (c ∈ [" "; "009"; "010"; "011"; "012"; "013"]%char).

Fixpoint skipws (s : string) : string :=
  match s with
  | String c s' => if is_space c then skipws s' else s
  | EmptyString => s
  end.

(** The maximal run of characters that are not white space. *)
Fixpoint token (s : string) : string * string :=
  match s with
  | String c s' =>
      if is_space c then (EmptyString, s)
      else let '(t, rest) := token s' in (String c t, rest)
  | EmptyString => (EmptyString, s)
  end.

(** [stream >> str]: the next token and what follows it, or [None] (the
    stream fails) when only white space is left. *)
Definition extract_string (s : string) : option (string * string) :=
  match token (skipws s) with
  | (EmptyString, _) => None
  | (t, rest) => Some (t, rest)
  end.

Definition hex_digit (c : ascii) : option (uint -> uint) :=
  match c with
  | "0" => Some D0 | "1" => Some D1 | "2" => Some D2 | "3" => Some D3
  | "4" => Some D4 | "5" => Some D5 | "6" => Some D6 | "7" => Some D7
  | "8" => Some D8 | "9" => Some D9
  | "a" | "A" => Some Da | "b" | "B" => Some Db | "c" | "C" => Some Dc
  | "d" | "D" => Some Dd | "e" | "E" => Some De | "f" | "F" => Some Df
  | _ => None
  end%char.

(** The maximal run of hexadecimal digits at the head of [s]. *)
Fixpoint hex_run (s : string) : uint * string :=
  match s with
  | String c s' =>
      match hex_digit c with
      | Some d => let '(u, rest) := hex_run s' in (d u, rest)
      | None => (Nil, s)
      end
  | EmptyString => (Nil, s)
  end.

Definition strip_0x (s : string) : string :=
  match s with
  | String "0" (String "x" s') | String "0" (String "X" s') => s'
  | _ => s
  end%char.

Record Extraction : Type := { value : Z; ok : bool; rest : string }.

(** The sign [num_get] accepts in front of a number. *)
Definition strip_sign (s : string) : bool * string :=
  match s with
  | String "-" s' => (true, s')
  | String "+" s' => (false, s')
  | _ => (false, s)
  end%char.

(** [stream >> std::hex >> v] for a [uint64_t v]: white space is skipped,
    an optional sign and an optional [0x] are dropped and the longest run of
    hexadecimal digits is converted, negated modulo [2^64] after a minus
    sign. With no digit the extraction fails and stores 0; a value that does
    not fit 64 bits makes it fail and store the largest value. *)
Definition extract_hex (s : string) : Extraction :=
  let '(negative, s) := strip_sign (skipws s) in
  let '(digits, rest) := hex_run (strip_0x s) in
  match digits with
  | Nil => {| value := 0; ok := false; rest := rest |}
  | _ =>
      let v := Z.of_N (N.of_hex_uint digits) in
      if decide (v ≤ all_ones 64)
      then {| value := if negative then wrap 64 (- v) else v;
              ok := true; rest := rest |}
      else {| value := all_ones 64; ok := false; rest := rest |}
  end.

(** [ss << std::hex << v]: lower-case digits, no prefix, ["0"] for zero. *)
Definition insert_hex (v : Z) : string :=
  HexadecimalString.NilZero.string_of_uint (N.to_hex_uint (Z.to_N v)).

(** [while (stream >> std::hex >> v) { ... }]: the values extracted until
    the first failure. Each successful extraction consumes a digit, so
    [String.length s] rounds exhaust the stream. *)
Fixpoint extract_all_hex (fuel : nat) (s : string) : list Z :=
  match fuel with
  | O => []
  | S fuel =>
      let e := extract_hex s in
      if ok e then value e :: extract_all_hex fuel (rest e) else []
  end.

(** [name.substr(0, name.find("-"))]: everything before the first dash, the
    whole string when it has none. *)
Fixpoint before_dash (s : string) : string :=
  match s with
  | String c s' =>
      if decide (c = "-"%char) then EmptyString else String c (before_dash s')
  | EmptyString => EmptyString
  end.

End Stream.

(* ================================================================== *)
(** ** [lib/Core/PreLifter.cpp] *)
(* ================================================================== *)

Module PreLifter.
Import Klee Native.

(** The trace-list file of the workspace: absent ([remill::FileExists] is
    false), present but not opened by the [std::ifstream], or opened with
    its content. *)
Inductive TraceListFile : Type :=
| NoFile
| Unopenable
| Opened (content : string).

(** The entries of a directory in the order [readdir] returns them, each
    with the module its file holds (ignored for [.] and [..]). *)
Definition Directory : Type := list (string * LLVMModule).

Record Workspace : Type := {
  TraceListPath : TraceListFile;
  prelift_traces : option Directory;
}.

(** [std::vector<std::pair<uint64_t, bool>>] and
    [std::unordered_map<uint64_t, llvm::Function *>]: the placeholder
    inserted by [(void) new_lifted_traces[addr]] is a null pointer
    ([None]). *)
Definition WorkList : Type := list (Z * bool).
Definition TraceMap : Type := gmap Z (option nat).

(** Both discovery passes have their whole body inside a comment. *)
Definition RecursiveDescentPass {MemoryMapPtr : Type} (map : MemoryMapPtr)
    (decoder_work_list : WorkList) (new_lifted_traces : TraceMap)
    : WorkList * TraceMap :=
  (decoder_work_list, new_lifted_traces).

Definition LinearSweepPass {MemoryMapPtr : Type} (map : MemoryMapPtr)
    (decoder_work_list : WorkList) (new_lifted_traces : TraceMap)
    : WorkList * TraceMap :=
  (decoder_work_list, new_lifted_traces).

Section PreLifter.
Context `{!KleeCore, !NativeMemory}.

(** The lifter and optimiser come from remill: an interface. [Lift store m
    trace] is the worker's module after [TraceLifter::Lift(trace, ...)] has
    run on module [m] over the bytes of [store]. *)
Class Remill : Type := {
  LoadArchSemantics : LLVMModule;
  Lift : ConcreteStore -> LLVMModule -> Z -> LLVMModule;
  OptimizeModule : LLVMModule -> LLVMModule;
}.
Context `{!Remill}.

Record Worker : Type := {
  traces : list Z;
  map_semantics : LLVMModule;
}.

(** [new Worker(new llvm::LLVMContext())] followed by
    [worker->traces = trace_batch]. *)
Definition new_worker (trace_batch : list Z) : Worker :=
  {| traces := trace_batch; map_semantics := LoadArchSemantics |}.

(** The pre-lifter object: the address space behind [trace_manager], the
    workers, and the log. *)
Record t : Type := {
  memory : AddressSpace;
  workers : list Worker;
  log : list LogEntry;
}.

Definition LOG (entry : LogEntry) (self : t) : t :=
  {| memory := memory self; workers := workers self;
     log := log self ++ [entry] |}.

Definition set_workers (ws : list Worker) (self : t) : t :=
  {| memory := memory self; workers := ws; log := log self |}.

Definition set_memory (mem : AddressSpace) (self : t) : t :=
  {| memory := mem; workers := workers self; log := log self |}.

(** The locals of the batching loop of [decodeAndLiftMappings]. *)
Record Batching : Type := {
  prev_base : Z;
  trace_batch : list Z;
  batch_workers : list Worker;
}.

Definition emplace_batch (batch : list Z) (ws : list Worker) : list Worker :=
  match batch with
  | [] => ws
  | _ => ws ++ [new_worker batch]
  end.

(** One round of [while (trace_file_stream >> std::hex >> trace_address)]. *)
Definition batch_step (store : ConcreteStore) (b : Batching)
    (trace_address : Z) : Batching :=
  let b :=
    if negb (IsSameMappedRange store trace_address (prev_base b)) then
      {| prev_base := trace_address;
         trace_batch := [];
         batch_workers := emplace_batch (trace_batch b) (batch_workers b) |}
    else b in
  {| prev_base := prev_base b;
     trace_batch := trace_batch b ++ [trace_address];
     batch_workers := batch_workers b |}.

(** What the batching loop maintains about a set [P] of addresses and the
    workers [before] it started with: the open batch holds addresses of [P],
    and every worker is one of [before] or holds addresses of [P]. *)
Definition batching_inv (P : Z → Prop) (before : list Worker) (b : Batching)
    : Prop :=
  Forall P (trace_batch b) ∧
  Forall (λ w, w ∈ before ∨ Forall P (traces w)) (batch_workers b).

(** The addresses the loop sees: the label is extracted first, then
    addresses until an extraction fails. *)
Definition trace_addresses (content : string) : list Z :=
  match Stream.extract_string content with
  | None => []
  | Some (trace_heads_label, rest) =>
      Stream.extract_all_hex (String.length rest) rest
  end.

Definition decodeAndLiftMappings (ws : Workspace) (self : t) : t :=
  match TraceListPath ws with
  | NoFile => self
  | Unopenable =>
      let self := LOG (LOG_INFO "grabbing traces from the trace list file")
                    self in
      LOG (LOG_ERROR "cannot read the trace list file") self
  | Opened content =>
      let self := LOG (LOG_INFO "grabbing traces from the trace list file")
                    self in
      let b := foldl (batch_step (concrete (memory self)))
                 {| prev_base := 0; trace_batch := [];
                    batch_workers := workers self |}
                 (trace_addresses content) in
      set_workers (emplace_batch (trace_batch b) (batch_workers b)) self
  end.

(** [remill::StoreModuleToFile]: the file of that name is overwritten, or
    created after the entries already there. *)
Fixpoint StoreModuleToFile (module : LLVMModule) (file : string)
    (dir : Directory) : Directory :=
  match dir with
  | [] => [(file, module)]
  | (d_name, content) :: rest =>
      if decide (d_name = file) then (d_name, module) :: rest
      else (d_name, content) :: StoreModuleToFile module file rest
  end.

(** The name of a worker's cache file inside [prelift_traces]. *)
Definition cache_file_name (start end_ : Z) : string :=
  "0x" +:+ (Stream.insert_hex start +:+ ("-0x" +:+ Stream.insert_hex end_)).

(** [LiftMapping]: the traces are lifted from the back of the vector to the
    front, the module is optimised and stored under the name made of the
    first and last trace. [traces.front()] on an empty vector is undefined
    ([None]). *)
Definition LiftMapping (store : ConcreteStore) (worker : Worker)
    (dir : Directory) : option (Worker * Directory) :=
  start ← head (traces worker);
  end_ ← list.last (traces worker);
  let module := foldl (Lift store) (map_semantics worker)
                  (reverse (traces worker)) in
  let module := OptimizeModule module in
  Some ({| traces := []; map_semantics := module |},
        StoreModuleToFile module (cache_file_name start end_) dir).

(** The workers' threads are started and joined; they are run here one
    after the other, in the order of [workers]. *)
Fixpoint lift_workers (store : ConcreteStore) (ws : list Worker)
    (dir : Directory) : option (list Worker * Directory) :=
  match ws with
  | [] => Some ([], dir)
  | worker :: rest =>
      '(worker, dir) ← LiftMapping store worker dir;
      '(rest, dir) ← lift_workers store rest dir;
      Some (worker :: rest, dir)
  end.

(** The address a cache file is filed under: [name.substr(0,
    name.find("-"))] read through [>> std::hex] into the local
    [uint64_t map_label], which is declared without a value. When nothing
    or only white space stands before the first dash the stream is at its
    end before a character is read, the extraction stores nothing and the
    variable is read as it was declared: undefined ([None]). Otherwise the
    extraction stores a value, also when it fails. *)
Definition map_label (d_name : string) : option Z :=
  let name := Stream.before_dash d_name in
  match Stream.skipws name with
  | EmptyString => None
  | _ => Some (Stream.value (Stream.extract_hex name))
  end.

(** One round of [while (auto ent = readdir(dir))] in [preLift]. *)
Definition load_entry (mem : AddressSpace) (ent : string * LLVMModule)
    : option AddressSpace :=
  let '(d_name, module) := ent in
  if decide (d_name = "." ∨ d_name = "..") then Some mem
  else
    map_label ← map_label d_name;
    let page_name := FindRange_Name (concrete mem) map_label in
    Some (set_aot_traces (<[page_name := module]> (aot_traces mem)) mem).

(** The entries of [dir] that the scan files under [page_name], in the
    order of the scan. *)
Definition filed_under (store : ConcreteStore) (page_name : string)
    (dir : list (string * LLVMModule)) : list (string * LLVMModule) :=
  filter (λ ent, ¬ (ent.1 = "." ∨ ent.1 = "..") ∧
                 FindRange_Name store <$> map_label ent.1 = Some page_name)
    dir.

(** The entries the scan gets through: the two standing ones, which it
    skips, and the names that give [map_label] a value. *)
Definition scannable (dir : list (string * LLVMModule)) : Prop :=
  Forall (λ ent, ent.1 = "." ∨ ent.1 = ".." ∨ is_Some (map_label ent.1)) dir.

(** The scan of the cache directory that ends [preLift]. *)
Definition rehydrate (dir : Directory) (mem : AddressSpace)
    : option AddressSpace :=
  foldl (λ scanned ent, mem ← scanned; load_entry mem ent) (Some mem) dir.

(** [remill::TryCreateDirectory]: a directory that is not there is created
    with its two standing entries. *)
Definition TryCreateDirectory (dir : option Directory) : Directory :=
  default [(".", []); ("..", [])] dir.

Definition preLift (ws : Workspace) (self : t) : option (Workspace * t) :=
  let dir := TryCreateDirectory (prelift_traces ws) in
  let self := decodeAndLiftMappings ws self in
  '(lifted, dir) ← lift_workers (concrete (memory self)) (workers self) dir;
  let self := set_workers lifted self in
  mem ← rehydrate dir (memory self);
  let self := set_memory mem self in
  Some ({| TraceListPath := TraceListPath ws; prelift_traces := Some dir |},
        self).

End PreLifter.

End PreLifter.

(* ================================================================== *)
(** ** Instances of the interfaces, for evaluating the code *)
(* ================================================================== *)

Module Instances.
Import Klee Native.

(** Modelled from the spec: KLEE's [ObjectState] is not among the modelled
    files. The spec's storage cell "can hold either a concrete byte sequence
    or a symbolic expression", and a write followed by a read at the same
    place returns "the identical symbolic expression": an object is the
    expression last written at each offset, and reads as zero elsewhere.
    No constraint makes a symbolic value unique: [toUnique] returns its
    argument. *)
#[global] Instance cells : KleeCore := {|
  ObjectState := gmap Z Expr;
  ObjectState_new := λ _, ∅;
  read := λ os offset width, default (ConstantExpr 0 width) (os !! offset);
  write := λ os offset value, <[offset := value]> os;
  toUnique := λ _ e, e;
|}.

(** Modelled from the spec: a MemoryRegion has a "base address, limit
    address, human-readable name, permission bits". *)
Record MappedRange : Type := {
  BaseAddress : Z;
  LimitAddress : Z;
  Name : string;
  can_read : bool;
  can_write : bool;
}.

Definition Contains (r : MappedRange) (addr : Z) : bool :=
  bool_decide (BaseAddress r ≤ addr < LimitAddress r).

Record Store : Type := {
  maps : list MappedRange;
  bytes : gmap Z Z;
}.

Definition FindRange (store : Store) (addr : Z) : option MappedRange :=
  find (λ r, Contains r addr) (maps store).

(** The addresses of the bytes of a [bits]-wide access at [addr]. *)
Definition byte_addresses (addr bits : Z) : list Z :=
  (λ i : nat, addr + Z.of_nat i) <$> seq 0 (Z.to_nat (bits `div` 8)).

Definition permitted (perm : MappedRange -> bool) (store : Store) (a : Z)
    : bool :=
  match FindRange store a with Some r => perm r | None => false end.

(** Modelled from the spec: a read succeeds when the target region is
    readable and fails when the address is unmapped or unreadable; a write
    reaches the backing store when the region is writable; bytes are laid
    out little-endian. *)
Definition store_read (store : Store) (addr bits : Z) : option Z :=
  let addrs := byte_addresses addr bits in
  if forallb (permitted can_read store) addrs
  then Some (foldr (λ a acc, default 0 (bytes store !! a) + 256 * acc) 0 addrs)
  else None.

Definition store_write (store : Store) (addr bits value : Z) : bool * Store :=
  let addrs := byte_addresses addr bits in
  if forallb (permitted can_write store) addrs
  then (true,
        {| maps := maps store;
           bytes := (foldl (λ '(m, v) a, (<[a := v `mod` 256]> m, v `div` 256))
                       (bytes store, value) addrs).1 |})
  else (false, store).

(** Modelled from the spec: a file is filed under the region that contains
    its address (here an address outside every region resolves to a region
    with the empty name), and a batch goes on while the next address lies in
    the region the batch's base address belongs to. *)
#[global] Instance regions : NativeMemory := {|
  ConcreteStore := Store;
  TryRead := store_read;
  TryWrite := store_write;
  FindRange_Name := λ store addr,
    match FindRange store addr with Some r => Name r | None => "" end;
  IsSameMappedRange := λ store a b,
    match FindRange store b with Some r => Contains r a | None => false end;
|}.

(** A lifter that turns every trace into one function of the module, and an
    optimiser that keeps the functions. *)
#[global] Instance one_function_per_trace : PreLifter.Remill := {|
  PreLifter.LoadArchSemantics := [];
  PreLifter.Lift := λ _ module trace, module ++ [trace];
  PreLifter.OptimizeModule := λ module, module;
|}.

(** One region: 4096 readable and writable bytes named [text] at
    [0x400000]. *)
Definition text_region : MappedRange :=
  {| BaseAddress := 4194304; LimitAddress := 4198400; Name := "text";
     can_read := true; can_write := true |}.

Definition one_region : Store := {| maps := [text_region]; bytes := ∅ |}.

Definition memory0 : AddressSpace :=
  {| concrete := one_region; symbolic_memory := []; aot_traces := ∅ |}.

(** A 32-bit symbolic value over the array [x]: the concatenation of its
    four byte reads, most significant first. *)
Definition x32 : Expr :=
  ConcatExpr (ReadExpr "x" (ConstantExpr 3 32))
    (ConcatExpr (ReadExpr "x" (ConstantExpr 2 32))
       (ConcatExpr (ReadExpr "x" (ConstantExpr 1 32))
          (ReadExpr "x" (ConstantExpr 0 32)))).

(** The object made symbolic under the name [x]. *)
Definition x_object : MemoryObject :=
  {| id := 0; address := 8192; name := "x" |}.

(** A state with the symbolic object [x] bound, and nothing else. *)
Definition state0 : ExecutionState :=
  {| constraints := []; symbolics := [(x_object, "x")];
     addressSpace := {[ 0%nat := (∅ : gmap Z Expr) ]}; locals := ∅ |}.

(** A file of 100 bytes: device 2049, inode 77, mode 0100644, one link,
    owner 1000:1000, 4096-byte blocks, 8 blocks of 512 bytes. *)
Definition a_stat : Host.stat :=
  {| Host.st_dev := 2049; Host.st_ino := 77; Host.st_mode := 33188;
     Host.st_nlink := 1; Host.st_uid := 1000; Host.st_gid := 1000;
     Host.st_rdev := 0; Host.st_size := 100; Host.st_blksize := 4096;
     Host.st_blocks := 8 |}.

Definition a_dirent : Host.dirent :=
  {| Host.d_ino := 77; Host.d_off := 24; Host.d_reclen := 32;
     Host.d_type := 8; Host.d_name := "a.txt" |}.

Definition no_dirent : Host.dirent :=
  {| Host.d_ino := 0; Host.d_off := 0; Host.d_reclen := 0; Host.d_type := 0;
     Host.d_name := "" |}.

(** A host with descriptor 3 and the path at address 12288 both naming the
    file above, and the directory stream 20480 holding one entry. *)
Definition host0 : Host.t :=
  {| Host.descriptors := {[ 3 := a_stat ]};
     Host.paths := {[ 12288 := a_stat ]};
     Host.dir_streams := {[ 20480 := [a_dirent] ]} |}.

(** A handler with address space 1 and empty caches. *)
Definition handler0 : SpecialFunctionHandler.Handler :=
  {| SpecialFunctionHandler.memories := {[ 1 := memory0 ]};
     SpecialFunctionHandler.counter := 1;
     SpecialFunctionHandler.fstat_vector := [];
     SpecialFunctionHandler.dirent_entry := no_dirent;
     SpecialFunctionHandler.errno := 0;
     SpecialFunctionHandler.host := host0;
     SpecialFunctionHandler.log := [] |}.

Definition u64 (v : Z) : Expr := ConstantExpr v 64.

(** A pre-lifter over the one-region memory, before any worker exists. *)
Definition prelifter0 : PreLifter.t :=
  {| PreLifter.memory := memory0; PreLifter.workers := [];
     PreLifter.log := [] |}.

(** A workspace without a trace-list file and without a cache directory. *)
Definition no_trace_list : PreLifter.Workspace :=
  {| PreLifter.TraceListPath := PreLifter.NoFile;
     PreLifter.prelift_traces := None |}.

(** A workspace whose trace list names three addresses of the region and
    one outside it. *)
Definition four_traces : PreLifter.Workspace :=
  {| PreLifter.TraceListPath :=
       PreLifter.Opened "TRACES 400000 400010 400020 500000";
     PreLifter.prelift_traces := None |}.

(** The value a handler bound to [target], when it returned. *)
Definition bound (target : nat) (r : SpecialFunctionHandler.Handled)
    : option Expr :=
  '(_, state) ← r; locals state !! target.

(** [__remill_write_memory_32(1, addr, x32)]: a symbolic 32-bit write. *)
Definition symbolic_write (addr : Z) : SpecialFunctionHandler.Handled :=
  SpecialFunctionHandler.handle__remill_write_32 handler0 state0 7%nat
    [u64 1; u64 addr; x32].

End Instances.

(* ================================================================== *)
(** ** The handler table and its dispatch *)
(* ================================================================== *)

Module Dispatch.

(** A row of [handlerInfo]. A pointer to a member function is identified
    by the member's name. The struct is declared in the class header; the
    initialisers of the two macros give the order of the flags: [addDNR]
    ("does not return") sets the first, [add] passes [ret] as the second,
    and [prepare] and [bind] read them by name. *)
Record HandlerInfo : Type := {
  name : string;
  handler : string;
  doesNotReturn : bool;
  hasReturnValue : bool;
  doNotOverride : bool;
}.

(** The macros [add] and [addDNR]. *)
Definition add (name handler : string) (ret : bool) : HandlerInfo :=
  {| name := name; handler := handler; doesNotReturn := false;
     hasReturnValue := ret; doNotOverride := false |}.

Definition addDNR (name handler : string) : HandlerInfo :=
  {| name := name; handler := handler; doesNotReturn := true;
     hasReturnValue := false; doNotOverride := false |}.

(** The table, on a platform other than [__APPLE__]. *)
Definition handlerInfo : list HandlerInfo := [
  addDNR "__assert_rtn" "handleAssertFail";
  addDNR "__assert_fail" "handleAssertFail";
  addDNR "_assert" "handleAssert";
  addDNR "abort" "handleAbort";
  addDNR "_exit" "handleExit";
  {| name := "exit"; handler := "handleExit"; doesNotReturn := true;
     hasReturnValue := false; doNotOverride := true |};
  addDNR "klee_abort" "handleAbort";
  addDNR "klee_silent_exit" "handleSilentExit";
  addDNR "klee_report_error" "handleReportError";
  add "calloc" "handleCalloc" true;
  add "free" "handleFree" false;
  add "klee_assume" "handleAssume" false;
  add "klee_check_memory_access" "handleCheckMemoryAccess" false;
  add "klee_get_valuef" "handleGetValue" true;
  add "klee_get_valued" "handleGetValue" true;
  add "klee_get_valuel" "handleGetValue" true;
  add "klee_get_valuell" "handleGetValue" true;
  add "klee_get_value_i32" "handleGetValue" true;
  add "klee_get_value_i64" "handleGetValue" true;
  add "klee_define_fixed_object" "handleDefineFixedObject" false;
  add "klee_get_obj_size" "handleGetObjSize" true;
  add "klee_get_errno" "handleGetErrno" true;
  add "__errno_location" "handleErrnoLocation" true;
  add "klee_is_symbolic" "handleIsSymbolic" true;
  add "klee_make_symbolic" "handleMakeSymbolic" false;
  add "klee_mark_global" "handleMarkGlobal" false;
  add "klee_open_merge" "handleOpenMerge" false;
  add "klee_close_merge" "handleCloseMerge" false;
  add "klee_prefer_cex" "handlePreferCex" false;
  add "klee_posix_prefer_cex" "handlePosixPreferCex" false;
  add "klee_print_expr" "handlePrintExpr" false;
  add "klee_print_range" "handlePrintRange" false;
  add "klee_set_forking" "handleSetForking" false;
  add "klee_stack_trace" "handleStackTrace" false;
  add "klee_warning" "handleWarning" false;
  add "klee_warning_once" "handleWarningOnce" false;
  add "klee_alias_function" "handleAliasFunction" false;
  add "malloc" "handleMalloc" true;
  add "memalign" "handleMemalign" true;
  add "realloc" "handleRealloc" true;
  add "_ZdaPv" "handleDeleteArray" false;
  add "_ZdlPv" "handleDelete" false;
  add "_Znaj" "handleNewArray" true;
  add "_Znwj" "handleNew" true;
  add "_Znam" "handleNewArray" true;
  add "_Znwm" "handleNew" true;
  add "__ubsan_handle_add_overflow" "handleAddOverflow" false;
  add "__ubsan_handle_sub_overflow" "handleSubOverflow" false;
  add "__ubsan_handle_mul_overflow" "handleMulOverflow" false;
  add "__ubsan_handle_divrem_overflow" "handleDivRemOverflow" false;
  add "__kleemill_get_lifted_function"
    "handle__kleemill_get_lifted_function" true;
  add "__kleemill_can_write_byte" "handle__kleemill_can_write_byte" true;
  add "__kleemill_can_read_byte" "handle__kleemill_can_read_byte" true;
  add "__kleemill_free_memory" "handle__kleemill_free_memory" true;
  add "__kleemill_allocate_memory" "handle__kleemill_allocate_memory" true;
  add "__kleemill_protect_memory" "handle__kleemill_protect_memory" true;
  add "__kleemill_is_mapped_address"
    "handle__kleemill_is_mapped_address" true;
  add "__kleemill_find_unmapped_address"
    "handle__kleemill_find_unmapped_address" true;
  add "__kleemill_log_state" "handle__kleemill_log_state" false;
  add "__remill_write_memory_64" "handle__remill_write_64" true;
  add "__remill_write_memory_32" "handle__remill_write_32" true;
  add "__remill_write_memory_16" "handle__remill_write_16" true;
  add "__remill_write_memory_8" "handle__remill_write_8" true;
  add "__remill_read_memory_64" "handle__remill_read_64" true;
  add "__remill_read_memory_32" "handle__remill_read_32" true;
  add "__remill_read_memory_16" "handle__remill_read_16" true;
  add "__remill_read_memory_8" "handle__remill_read_8" true;
  add "llvm.ctpop.i32" "handle__llvm_ctpop" true;
  add "klee_overshift_check" "handle__klee_overshift_check" false;
  add "my_fstat" "handle__fstat64" true;
  add "stat64" "handle__stat64" true;
  add "my_openat" "handle_openat64" true;
  add "get_fstat_index" "handle_get_fstat_index" true;
  add "get_dirent_index" "handle_get_dirent_index" true;
  add "get_dirent_name" "handle_get_dirent_name" true;
  add "my_readdir" "handle__my_readdir" true
].

(** [sizeof(handlerInfo) / sizeof(handlerInfo[0])]. *)
Definition size : nat := length handlerInfo.

(** [const_iterator]: a base pointer, which is the table or null, and an
    index. *)
Record const_iterator : Type := {
  base : option (list HandlerInfo);
  index : nat;
}.

Definition begin : const_iterator := {| base := Some handlerInfo; index := 0 |}.

(** The null pointer is the sentinel. *)
Definition end_ : const_iterator := {| base := None; index := 0 |}.

(** [operator++]. *)
Definition incr (it : const_iterator) : const_iterator :=
  let index := S (index it) in
  if decide (size ≤ index)%nat then {| base := None; index := 0 |}
  else {| base := base it; index := index |}.

(** [*it] is [base[index]]; through a null base it has no defined
    behaviour. *)
Definition deref (it : const_iterator) : option HandlerInfo :=
  table ← base it; table !! index it.

(** What [prepare] and [bind] look at in an [llvm::Function]: whether it is
    a declaration and whether it carries [Attribute::NoReturn]. *)
Record Function : Type := {
  isDeclaration : bool;
  NoReturn : bool;
}.

Definition addFnAttr_NoReturn (f : Function) : Function :=
  {| isDeclaration := isDeclaration f; NoReturn := true |}.

(** [deleteBody] turns a definition into a declaration. *)
Definition deleteBody (f : Function) : Function :=
  {| isDeclaration := true; NoReturn := NoReturn f |}.

(** An [llvm::Module], by the names of its functions: [getFunction] is the
    lookup, and a function of the module stands for its [Function *]. *)
Definition LLVMModule : Type := gmap string Function.

Definition getFunction (mod_ : LLVMModule) (name : string) : option Function :=
  mod_ !! name.

(** One round of the loop of [prepare]. *)
Definition prepare_step (acc : LLVMModule * list string) (hi : HandlerInfo)
    : LLVMModule * list string :=
  let '(mod_, preservedFunctions) := acc in
  match getFunction mod_ (name hi) with
  | Some f =>
      if negb (doNotOverride hi) || isDeclaration f then
        let preservedFunctions := preservedFunctions ++ [name hi] in
        let f := if doesNotReturn hi then addFnAttr_NoReturn f else f in
        let f := if negb (isDeclaration f) then deleteBody f else f in
        (<[name hi := f]> mod_, preservedFunctions)
      else acc
  | None => acc
  end.

Definition prepare (mod_ : LLVMModule) (preservedFunctions : list string)
    : LLVMModule * list string :=
  foldl prepare_step (mod_, preservedFunctions) handlerInfo.

(** [handlers]: from a function to its handler and whether the handler
    produces a value. *)
Definition handlers_ty : Type := gmap string (string * bool).

(** One round of the loop of [bind]. *)
Definition bind_step (mod_ : LLVMModule) (handlers : handlers_ty)
    (hi : HandlerInfo) : handlers_ty :=
  match getFunction mod_ (name hi) with
  | Some f =>
      if negb (doNotOverride hi) || isDeclaration f then
        <[name hi := (handler hi, hasReturnValue hi)]> handlers
      else handlers
  | None => handlers
  end.

Definition bind (mod_ : LLVMModule) (handlers : handlers_ty) : handlers_ty :=
  foldl (bind_step mod_) handlers handlerInfo.

(** The test both loops make on a row: the module has a function of that
    name, and the row may override it or it is only declared. *)
Definition overrides (mod_ : LLVMModule) (hi : HandlerInfo) : bool :=
  match getFunction mod_ (name hi) with
  | Some f => negb (doNotOverride hi) || isDeclaration f
  | None => false
  end.

(** What [handle] does besides returning its flag: nothing, the
    executor's [terminateStateOnExecError], or the call of the handler. *)
Inductive Dispatched : Type :=
| not_special
| terminateStateOnExecError (message : string)
| call (h : string).

(** [handle]; [use_empty] is [target->inst->use_empty()]. *)
Definition handle (handlers : handlers_ty) (f : string) (use_empty : bool)
    : bool * Dispatched :=
  match handlers !! f with
  | Some (h, hasReturnValue) =>
      if negb hasReturnValue && negb use_empty then
        (true, terminateStateOnExecError
                 "expected return value from void special function")
      else (true, call h)
  | None => (false, not_special)
  end.

End Dispatch.

(* ================================================================== *)
(** ** The region and bit-count handlers *)
(* ================================================================== *)

Module Kleemill.
Import Klee Native SpecialFunctionHandler.

(** The region table behind an address space is declared in
    [Native/Memory/AddressSpace.h], outside the modelled files: an
    interface over the concrete store. [AddMap] takes the base, the size,
    the host address of the name string and the offset; [FindHole] is
    [Some hole] when it returns true and has stored [hole] through its
    out-parameter. *)
Class NativeRegions `{!NativeMemory} : Type := {
  CanRead : ConcreteStore -> Z -> bool;
  CanWrite : ConcreteStore -> Z -> bool;
  IsMapped : ConcreteStore -> Z -> bool;
  AddMap : ConcreteStore -> Z -> Z -> Z -> Z -> ConcreteStore;
  RemoveMap : ConcreteStore -> Z -> Z -> ConcreteStore;
  SetPermissions : ConcreteStore -> Z -> Z -> bool -> bool -> bool
                   -> ConcreteStore;
  FindHole : ConcreteStore -> Z -> Z -> Z -> option Z;
}.

(** [static_cast<bool>(v)]. *)
Definition static_cast_bool (v : Z) : bool := bool_decide (v ≠ 0).

(** [__builtin_popcount] takes an [unsigned int]: the 64-bit argument is
    converted to 32 bits, whose ones are counted. *)
Definition builtin_popcount (x : Z) : Z :=
  let x := wrap 32 x in
  foldr (λ i n, Z.b2z (Z.testbit x (Z.of_nat i)) + n) 0 (seq 0 32).

Arguments builtin_popcount : simpl never.

Section Handlers.
Context `{!KleeCore, !NativeMemory, !NativeRegions}.

(** The region operation has run on the address space behind [mem_uint]. *)
Definition with_store (mem_uint : Z) (mem : AddressSpace)
    (store : ConcreteStore) (self : Handler) : Handler :=
  set_memories (<[mem_uint := set_concrete store mem]> (memories self)) self.

Definition handle__kleemill_can_read_byte (self : Handler)
    (state : ExecutionState) (target : nat) (arguments : list Expr)
    : Handled :=
  mem_uint ← unique_uint state arguments 0;
  addr_uint ← unique_uint state arguments 1;
  mem ← memories self !! mem_uint;
  let can_read := CanRead (concrete mem) addr_uint in
  Some (self, bindLocal target (ConstantExpr_create (Z.b2z can_read) Bool)
                state).

Definition handle__kleemill_can_write_byte (self : Handler)
    (state : ExecutionState) (target : nat) (arguments : list Expr)
    : Handled :=
  mem_uint ← unique_uint state arguments 0;
  addr_uint ← unique_uint state arguments 1;
  mem ← memories self !! mem_uint;
  let can_write := CanWrite (concrete mem) addr_uint in
  Some (self, bindLocal target (ConstantExpr_create (Z.b2z can_write) Bool)
                state).

Definition handle__kleemill_free_memory (self : Handler)
    (state : ExecutionState) (target : nat) (arguments : list Expr)
    : Handled :=
  mem_val ← unique_val state arguments 0;
  mem_uint ← getZExtValue mem_val;
  where_uint ← unique_uint state arguments 1;
  size_uint ← unique_uint state arguments 2;
  mem ← memories self !! mem_uint;
  let self := with_store mem_uint mem
                (RemoveMap (concrete mem) where_uint size_uint) self in
  Some (self, bindLocal target mem_val state).

Definition handle__kleemill_allocate_memory (self : Handler)
    (state : ExecutionState) (target : nat) (arguments : list Expr)
    : Handled :=
  mem_val ← unique_val state arguments 0;
  mem_uint ← getZExtValue mem_val;
  where_uint ← unique_uint state arguments 1;
  size_uint ← unique_uint state arguments 2;
  name_uint ← unique_uint state arguments 3;
  offset_uint ← unique_uint state arguments 4;
  mem ← memories self !! mem_uint;
  let self := with_store mem_uint mem
                (AddMap (concrete mem) where_uint size_uint name_uint
                   offset_uint) self in
  Some (self, bindLocal target mem_val state).

Definition handle__kleemill_protect_memory (self : Handler)
    (state : ExecutionState) (target : nat) (arguments : list Expr)
    : Handled :=
  mem_val ← unique_val state arguments 0;
  mem_uint ← getZExtValue mem_val;
  where_uint ← unique_uint state arguments 1;
  size_uint ← unique_uint state arguments 2;
  can_read_uint ← unique_uint state arguments 3;
  can_write_uint ← unique_uint state arguments 4;
  can_exec_uint ← unique_uint state arguments 5;
  mem ← memories self !! mem_uint;
  let self := with_store mem_uint mem
                (SetPermissions (concrete mem) where_uint size_uint
                   (static_cast_bool can_read_uint)
                   (static_cast_bool can_write_uint)
                   (static_cast_bool can_exec_uint)) self in
  Some (self, bindLocal target mem_val state).

Definition handle__kleemill_is_mapped_address (self : Handler)
    (state : ExecutionState) (target : nat) (arguments : list Expr)
    : Handled :=
  mem_uint ← unique_uint state arguments 0;
  where_uint ← unique_uint state arguments 1;
  mem ← memories self !! mem_uint;
  let is_mapped := IsMapped (concrete mem) where_uint in
  Some (self, bindLocal target (ConstantExpr_create (Z.b2z is_mapped) Bool)
                state).

Definition handle__kleemill_find_unmapped_address (self : Handler)
    (state : ExecutionState) (target : nat) (arguments : list Expr)
    : Handled :=
  mem_uint ← unique_uint state arguments 0;
  base_uint ← unique_uint state arguments 1;
  limit_uint ← unique_uint state arguments 2;
  size_uint ← unique_uint state arguments 3;
  mem ← memories self !! mem_uint;
  match FindHole (concrete mem) base_uint limit_uint size_uint with
  | Some hole =>
      Some (self, bindLocal target (ConstantExpr_create hole Int64) state)
  | None =>
      Some (self, bindLocal target (ConstantExpr_create 0 Int64) state)
  end.

(** The three handlers that change the region table, each with the number
    of arguments it reads, and the three that ask the table a yes-or-no
    question. *)
Definition region_updates
    : list (nat * (Handler → ExecutionState → nat → list Expr → Handled)) :=
  [ (3%nat, handle__kleemill_free_memory);
    (5%nat, handle__kleemill_allocate_memory);
    (6%nat, handle__kleemill_protect_memory) ].

Definition region_queries
    : list (Handler → ExecutionState → nat → list Expr → Handled) :=
  [ handle__kleemill_can_read_byte; handle__kleemill_can_write_byte;
    handle__kleemill_is_mapped_address ].

Definition handle__llvm_ctpop (self : Handler) (state : ExecutionState)
    (target : nat) (arguments : list Expr) : Handled :=
  pc_uint ← unique_uint state arguments 0;
  let ctop_val := builtin_popcount pc_uint in
  let self := LOG (LOG_INFO (pretty ctop_val +:+ " : LLVM CTPOP VALUE"))
                self in
  Some (self, bindLocal target (ConstantExpr_create ctop_val Int32) state).

End Handlers.

End Kleemill.

(** A region table for the store of [Instances]. *)
Module RegionTable.
Import Klee Native Instances.

Definition inside (base size : Z) (r : MappedRange) : bool :=
  bool_decide (base ≤ BaseAddress r ∧ LimitAddress r ≤ base + size).

Definition overlaps (base size : Z) (r : MappedRange) : bool :=
  bool_decide (BaseAddress r < base + size ∧ base < LimitAddress r).

(** Modelled from the spec: regions are added, removed and re-protected by
    base and size, and [FindHole] "returns not-found rather than erroring"
    when there is no gap. This table removes and re-protects the regions
    that lie inside the range, names a new region by the decimal value of
    the name pointer, and tries only the top of the interval as a hole. *)
#[global] Instance table : Kleemill.NativeRegions := {|
  Kleemill.CanRead := permitted can_read;
  Kleemill.CanWrite := permitted can_write;
  Kleemill.IsMapped := λ store addr,
    match FindRange store addr with Some _ => true | None => false end;
  Kleemill.AddMap := λ store base size name_uint offset,
    {| maps := {| BaseAddress := base; LimitAddress := base + size;
                  Name := pretty name_uint;
                  can_read := true; can_write := true |} :: maps store;
       bytes := bytes store |};
  Kleemill.RemoveMap := λ store base size,
    {| maps := filter (λ r, inside base size r = false) (maps store);
       bytes := bytes store |};
  Kleemill.SetPermissions := λ store base size r w x,
    {| maps := (λ m, if inside base size m
                     then {| BaseAddress := BaseAddress m;
                             LimitAddress := LimitAddress m;
                             Name := Name m;
                             can_read := r; can_write := w |}
                     else m) <$> maps store;
       bytes := bytes store |};
  Kleemill.FindHole := λ store base limit size,
    if bool_decide (base ≤ limit - size)
       && forallb (λ r, negb (overlaps (limit - size) size r)) (maps store)
    then Some (limit - size) else None;
|}.

End RegionTable.

(* ================================================================== *)
(** * Properties *)
(* ================================================================== *)

Module BridgeSpec.
Import Klee Native SpecialFunctionHandler Instances.

Section Bridge.
Context `{!KleeCore, !NativeMemory}.

(** The shared tail of the read handlers binds a constant of the width
    read: the value read, or all ones after a failed read. *)
Lemma read_concrete_failed bits failure mem addr_uint self state target :
  0 ≤ bits →
  TryRead (concrete mem) addr_uint bits = None →
  read_concrete bits failure mem addr_uint self state target =
    (LOG (LOG_ERROR failure) self,
     bindLocal target (ConstantExpr (all_ones bits) bits) state).
Proof.
  intros Hbits Hread. unfold read_concrete. rewrite Hread.
  unfold ConstantExpr_create, wrap, all_ones.
  rewrite Z.mod_small; [done|].
  pose proof (Z.pow_pos_nonneg 2 bits). lia.
Qed.

Lemma read_concrete_constant bits failure mem addr_uint self state target :
  ∃ v, locals (read_concrete bits failure mem addr_uint self state target).2
         !! target = Some (ConstantExpr v bits).
Proof.
  unfold read_concrete.
  destruct (TryRead (concrete mem) addr_uint bits) as [v|]; simpl;
    rewrite lookup_insert_eq; eauto.
Qed.

(** C9 (amended). For every width N in {8,16,32,64}, a width-N read at an
    address where [TryRead] fails, and (for the 32-bit handler, the only one
    that consults the overlays) where no symbolic overlay object exists,
    logs the failure and binds the all-ones constant [2^N - 1] of width N;
    the handler returns, and the execution state it leaves is the one it
    was given with that result bound: nothing terminates it. *)
Theorem failed_read_binds_all_ones (self : Handler) (state : ExecutionState)
    (target : nat) (arguments : list Expr) (mem_uint addr_uint : Z)
    (mem : AddressSpace) (bits : Z)
    (handler : Handler → ExecutionState → nat → list Expr → Handled) :
  (bits, handler) ∈ read_handlers →
  unique_uint state arguments 0 = Some mem_uint →
  unique_uint state arguments 1 = Some addr_uint →
  memories self !! mem_uint = Some mem →
  TryRead (concrete mem) addr_uint bits = None →
  (bits = 32 → find_overlay (symbolic_memory mem) addr_uint = None) →
  ∃ failure,
    handler self state target arguments =
      Some (LOG (LOG_ERROR failure) self,
            bindLocal target (ConstantExpr (all_ones bits) bits) state).
Proof.
  intros Hin Hmem Haddr Hspace Hread Hoverlay.
  unfold read_handlers in Hin.
  repeat (apply elem_of_cons in Hin as [[= -> ->]|Hin]);
    [..|by apply elem_of_nil in Hin];
    eexists;
    unfold handle__remill_read_8, handle__remill_read_16,
      handle__remill_read_32, handle__remill_read_64;
    rewrite Hmem, Haddr; simpl; rewrite Hspace; simpl;
    rewrite ?Hoverlay by done; rewrite read_concrete_failed by (done || lia);
    reflexivity.
Qed.

(** The 8-, 16- and 64-bit read handlers never look at the overlays:
    whenever they return, what they bind is a constant of the width read. *)
Theorem plain_reads_bind_constants (self self' : Handler)
    (state state' : ExecutionState) (target : nat) (arguments : list Expr)
    (bits : Z)
    (handler : Handler → ExecutionState → nat → list Expr → Handled) :
  (bits, handler) ∈ [ (8, handle__remill_read_8);
                      (16, handle__remill_read_16);
                      (64, handle__remill_read_64) ] →
  handler self state target arguments = Some (self', state') →
  ∃ v, locals state' !! target = Some (ConstantExpr v bits).
Proof.
  intros Hin Hrun.
  repeat (apply elem_of_cons in Hin as [[= -> ->]|Hin]);
    [..|by apply elem_of_nil in Hin];
    unfold handle__remill_read_8, handle__remill_read_16,
      handle__remill_read_64 in Hrun;
    destruct (unique_uint state arguments 0) as [mem_uint|]; try done;
    destruct (unique_uint state arguments 1) as [addr_uint|]; try done;
    simpl in Hrun;
    destruct (memories self !! mem_uint) as [mem|]; try done;
    simpl in Hrun; injection Hrun as Hrun;
    match type of Hrun with
    | read_concrete ?b ?f _ _ _ _ _ = _ =>
        destruct (read_concrete_constant b f mem addr_uint self state target)
          as [v Hv]
    end;
    rewrite Hrun in Hv; eauto.
Qed.

(** The three concrete write handlers, by width. *)
Lemma write_concrete_result bits failure self state target arguments
    mem_val mem_uint addr_uint value_uint mem :
  unique_val state arguments 0 = Some mem_val →
  getZExtValue mem_val = Some mem_uint →
  unique_uint state arguments 1 = Some addr_uint →
  unique_uint state arguments 2 = Some value_uint →
  memories self !! mem_uint = Some mem →
  ∃ self' state',
    write_concrete bits failure self state target arguments
      = Some (self', state') ∧
    locals state' !! target =
      Some (if (TryWrite (concrete mem) addr_uint bits
                  (wrap bits value_uint)).1
            then mem_val else createPointer 0) ∧
    memories self' !! mem_uint =
      Some (set_concrete (TryWrite (concrete mem) addr_uint bits
                            (wrap bits value_uint)).2 mem).
Proof.
  intros Hval Hmem Haddr Hvalue Hspace. unfold write_concrete, try_write.
  rewrite Hval; simpl. rewrite Hmem; simpl. rewrite Haddr; simpl.
  rewrite Hvalue; simpl. rewrite Hspace; simpl.
  destruct (TryWrite (concrete mem) addr_uint bits (wrap bits value_uint))
    as [[] store]; simpl; eexists _, _; (split; [reflexivity|]);
    simpl; by rewrite !lookup_insert_eq.
Qed.

(** For the widths 8, 16 and 64, a write of a constant binds the unchanged
    handle when [TryWrite] succeeds and a null pointer when it fails; the
    handler returns in both cases. *)
Theorem plain_writes_bind_handle_or_null (self : Handler)
    (state : ExecutionState) (target : nat) (arguments : list Expr)
    (mem_val : Expr) (mem_uint addr_uint value_uint : Z) (mem : AddressSpace)
    (bits : Z)
    (handler : Handler → ExecutionState → nat → list Expr → Handled) :
  (bits, handler) ∈ [ (8, handle__remill_write_8);
                      (16, handle__remill_write_16);
                      (64, handle__remill_write_64) ] →
  unique_val state arguments 0 = Some mem_val →
  getZExtValue mem_val = Some mem_uint →
  unique_uint state arguments 1 = Some addr_uint →
  unique_uint state arguments 2 = Some value_uint →
  memories self !! mem_uint = Some mem →
  ∃ self' state',
    handler self state target arguments = Some (self', state') ∧
    locals state' !! target =
      Some (if (TryWrite (concrete mem) addr_uint bits
                  (wrap bits value_uint)).1
            then mem_val else createPointer 0).
Proof.
  intros Hin Hval Hmem Haddr Hvalue Hspace.
  repeat (apply elem_of_cons in Hin as [[= -> ->]|Hin]);
    [..|by apply elem_of_nil in Hin];
    unfold handle__remill_write_8, handle__remill_write_16,
      handle__remill_write_64;
    match goal with
    | |- context [write_concrete ?b ?f] =>
        destruct (write_concrete_result b f self state target arguments
                    mem_val mem_uint addr_uint value_uint mem)
          as (self' & state' & Hrun & Hbound & _); [done..|]
    end; eauto.
Qed.

(** *** The stat and directory-entry caches *)

(** [fstat64] hands the host the descriptor as an [int], the low 32 bits
    of its first argument read as a signed number. When the host's [fstat]
    on that descriptor succeeds, the handler binds 0, clears [errno] and
    leaves the ten fields in the cache in the order device, inode, mode,
    link count, uid, gid, rdev, size, block size, block count. *)
Theorem fstat64_fills_cache (self : Handler) (state : ExecutionState)
    (target : nat) (arguments : list Expr) (fd_uint stat_uint : Z)
    (info : Host.stat) :
  unique_uint state arguments 0 = Some fd_uint →
  unique_uint state arguments 1 = Some stat_uint →
  Host.fstat (host self) (static_cast_int fd_uint) = Some info →
  ∃ self',
    handle__fstat64 self state target arguments =
      Some (self', bindLocal target (ConstantExpr 0 64) state) ∧
    errno self' = 0 ∧
    fstat_vector self' =
      wrap 64 <$> [ Host.st_dev info; Host.st_ino info; Host.st_mode info;
                    Host.st_nlink info; Host.st_uid info; Host.st_gid info;
                    Host.st_rdev info; Host.st_size info;
                    Host.st_blksize info; Host.st_blocks info ].
Proof.
  intros Hfd Hstat Hhost. unfold handle__fstat64.
  rewrite Hfd, Hstat; simpl. rewrite Hhost. eauto.
Qed.

(** The indexed getter binds the cached field at its index. *)
Theorem get_fstat_index_reads_cache (self : Handler) (state : ExecutionState)
    (target : nat) (arguments : list Expr) (index_uint field : Z) :
  unique_uint state arguments 0 = Some index_uint →
  fstat_vector self !! Z.to_nat index_uint = Some field →
  handle_get_fstat_index self state target arguments =
    Some (self, bindLocal target (ConstantExpr (wrap 64 field) 64) state).
Proof.
  intros Hindex Hfield. unfold handle_get_fstat_index.
  rewrite Hindex; simpl. by rewrite Hfield.
Qed.

(** A failed [fstat64] or [stat64] binds -1 (as a 32-bit constant) and sets
    [errno] to [EFAULT]; the cache is left alone. For [fstat64] the call
    that fails is the host's [fstat] on the descriptor as an [int], the low
    32 bits of the first argument read as a signed number; for [stat64] it
    is the host's [stat] on the path at the address given. *)
Theorem stat_failure_sets_EFAULT (self : Handler) (state : ExecutionState)
    (target : nat) (arguments : list Expr) (arg0 stat_uint : Z) :
  unique_uint state arguments 0 = Some arg0 →
  unique_uint state arguments 1 = Some stat_uint →
  (Host.fstat (host self) (static_cast_int arg0) = None →
   handle__fstat64 self state target arguments =
     Some (set_errno Host.EFAULT self,
           bindLocal target (ConstantExpr (all_ones 32) 32) state)) ∧
  (Host.stat_path (host self) arg0 = None →
   handle__stat64 self state target arguments =
     Some (set_errno Host.EFAULT self,
           bindLocal target (ConstantExpr (all_ones 32) 32) state)).
Proof.
  intros Harg0 Hstat.
  split; intros Hhost; unfold handle__fstat64, handle__stat64;
    rewrite Harg0, Hstat; simpl; by rewrite Hhost.
Qed.

(** Whatever the host answers, [stat64] leaves the cache as it was. *)
Theorem stat64_keeps_cache (self self' : Handler)
    (state state' : ExecutionState) (target : nat) (arguments : list Expr) :
  handle__stat64 self state target arguments = Some (self', state') →
  fstat_vector self' = fstat_vector self.
Proof.
  unfold handle__stat64. intros Hrun.
  destruct (unique_uint state arguments 0); [|done].
  destruct (unique_uint state arguments 1); [|done]. simpl in Hrun.
  by destruct (Host.stat_path _ _); injection Hrun as <- _.
Qed.

(** For each of the indices 0 to 3 the directory-entry getter binds the
    cached entry's type: every case of its [switch] falls through to the
    last one. *)
Theorem get_dirent_index_binds_type (self : Handler) (state : ExecutionState)
    (target : nat) (arguments : list Expr) (index_uint : Z) :
  unique_uint state arguments 0 = Some index_uint →
  index_uint ∈ [0; 1; 2; 3] →
  handle_get_dirent_index self state target arguments =
    Some (self,
          bindLocal target
            (ConstantExpr_create (wrap 32 (Host.d_type (dirent_entry self)))
               Int64) state).
Proof.
  intros Hindex Hin. unfold handle_get_dirent_index. rewrite Hindex; simpl.
  repeat (apply elem_of_cons in Hin as [->|Hin]); [done..|].
  by apply elem_of_nil in Hin.
Qed.

(** [my_readdir] binds true and caches the entry the host returns, and
    binds false, leaving the cache alone, at the end of the directory. *)
Theorem my_readdir_caches_entry (self : Handler) (state : ExecutionState)
    (target : nat) (arguments : list Expr) (dir_uint : Z)
    (dirent : option Host.dirent) (host' : Host.t) :
  unique_uint state arguments 0 = Some dir_uint →
  Host.readdir (host self) dir_uint = Some (dirent, host') →
  ∃ self',
    handle__my_readdir self state target arguments =
      Some (self',
            bindLocal target
              (ConstantExpr (match dirent with Some _ => 1 | None => 0 end)
                 1) state) ∧
    dirent_entry self' = default (dirent_entry self) dirent.
Proof.
  intros Hdir Hhost. unfold handle__my_readdir.
  rewrite Hdir; simpl. rewrite Hhost; simpl.
  destruct dirent as [[]|]; simpl; eauto.
Qed.

(** The 32-bit write handler ends with an unconditional
    [bindLocal(target, state, Expr::createPointer(0))]: whenever it
    returns, the value bound is the null pointer. *)
Theorem write_32_binds_null (self self' : Handler)
    (state state' : ExecutionState) (target : nat) (arguments : list Expr) :
  handle__remill_write_32 self state target arguments = Some (self', state') →
  locals state' !! target = Some (createPointer 0).
Proof.
  unfold handle__remill_write_32. intros Hrun.
  repeat match type of Hrun with
         | (?m ≫= _) = Some _ =>
             destruct m as [?|] eqn:?; simpl in Hrun; [|discriminate Hrun]
         | (let '(_, _) := ?p in _) = Some _ => destruct p; simpl in Hrun
         end.
  injection Hrun as _ <-. apply lookup_insert_eq.
Qed.

Lemma find_overlay_None (objects : MemoryMap) addr_uint :
  find_overlay objects addr_uint = None →
  ¬ Exists (λ p, address p.1 = addr_uint) objects.
Proof.
  unfold find_overlay. induction objects as [|p objects IH]; simpl.
  - intros _ Hex. by apply Exists_nil in Hex.
  - case_bool_decide as Hp; [done|].
    intros Hfind [Hex|Hex]%Exists_cons; [done|by apply IH].
Qed.

Lemma find_overlay_snoc (objects : MemoryMap) addr_uint mo os :
  find_overlay objects addr_uint = None →
  address mo = addr_uint →
  find_overlay (objects ++ [(mo, os)]) addr_uint = Some (mo, os).
Proof.
  unfold find_overlay. intros Hnone Hmo.
  induction objects as [|p objects IH]; simpl in *.
  - by rewrite bool_decide_eq_true_2.
  - case_bool_decide; [done|]. by apply IH.
Qed.

(** The symbolic path at width 32. A 32-bit write of a value that is not a
    constant, whose first kid reads the array [symbol], into a state whose
    one symbolic object is named [symbol], at an address without an overlay,
    returns; the 32-bit read that follows at the same address binds the
    very expression written, provided the object state reads back at offset
    0 what was written there. *)
Theorem symbolic_write_32_then_read_32 (self : Handler)
    (state : ExecutionState) (target target' : nat) (a0 a1 a2 : Expr)
    (mem_uint addr_uint w0 w1 : Z) (value_val re : Expr) (symbol : string)
    (mem : AddressSpace) (mo : MemoryObject) (array : string)
    (os : ObjectState) :
  toUnique (constraints state) a0 = ConstantExpr mem_uint w0 →
  toUnique (constraints state) a1 = ConstantExpr addr_uint w1 →
  toUnique (constraints state) a2 = value_val →
  isa_ConstantExpr value_val = false →
  getKid0 value_val = Some re →
  ReadExpr_root_name re = Some symbol →
  memories self !! mem_uint = Some mem →
  find_overlay (symbolic_memory mem) addr_uint = None →
  symbolics state = [(mo, array)] →
  name mo = symbol →
  findObject state mo = Some os →
  read (write os 0 value_val) 0 32 = value_val →
  ∃ self' state',
    handle__remill_write_32 self state target [a0; a1; a2]
      = Some (self', state') ∧
    handle__remill_read_32 self' state' target' [a0; a1]
      = Some (self', bindLocal target' value_val state').
Proof.
  intros Ha0 Ha1 Ha2 Hsym Hkid Hroot Hspace Hfresh Hsymbolics Hname Hobj
    Hlaw.
  unfold handle__remill_write_32, unique_val, unique_uint. simpl.
  rewrite Ha0, Ha1, Ha2. simpl. rewrite Hspace, Hsym, Hkid. simpl.
  rewrite Hroot, Hsymbolics. simpl.
  rewrite (decide_True (P := name mo = symbol)) by done.
  rewrite Hobj. simpl. eexists _, _. split; [reflexivity|].
  unfold handle__remill_read_32, unique_uint. simpl.
  rewrite Ha0, Ha1. simpl. rewrite lookup_insert_eq. simpl.
  unfold MemoryMap_insert.
  rewrite decide_False by (by apply find_overlay_None).
  erewrite find_overlay_snoc; [|exact Hfresh|reflexivity]. simpl.
  rewrite Hsymbolics. simpl.
  rewrite (decide_True (P := symbol = name mo)) by done.
  unfold findObject. simpl. rewrite lookup_insert_eq. simpl.
  by rewrite Hlaw.
Qed.

End Bridge.

(** The amended C9 on the one-region memory: address 5 is unmapped. *)
Lemma failed_read_binds_all_ones_witness :
  ∃ failure,
    handle__remill_read_32 handler0 state0 9%nat [u64 1; u64 5] =
      Some (LOG (LOG_ERROR failure) handler0,
            bindLocal 9%nat (ConstantExpr (all_ones 32) 32) state0).
Proof.
  apply (failed_read_binds_all_ones handler0 state0 9%nat [u64 1; u64 5]
           1 5 memory0 32 handle__remill_read_32).
  - unfold read_handlers. set_solver.
  - reflexivity.
  - reflexivity.
  - reflexivity.
  - reflexivity.
  - reflexivity.
Defined.

(** C9, as stated, fails for the 32-bit handler: a symbolic 32-bit write to
    the unmapped address 5 leaves an overlay object there, and the 32-bit
    read at 5 binds the symbolic expression although [TryRead] fails at that
    address. *)
Lemma read_32_at_unmapped_overlay :
  ('(self, state) ← symbolic_write 5;
   mem ← memories self !! 1;
   Some (TryRead (concrete mem) 5 32,
         bound 9%nat
           (handle__remill_read_32 self state 9%nat [u64 1; u64 5])))
  = Some (None, Some x32) ∧
  x32 ≠ ConstantExpr (all_ones 32) 32.
Proof. split; [by vm_compute|discriminate]. Qed.

(** The theorems above at concrete calls on [handler0] and [state0]. *)

Lemma plain_reads_bind_constants_witness :
  ∃ v, locals (bindLocal 9%nat (ConstantExpr 255 8) state0) !! 9%nat
       = Some (ConstantExpr v 8).
Proof.
  apply (plain_reads_bind_constants handler0
           (LOG (LOG_ERROR "Failed 1-byte read") handler0) state0 _ 9%nat
           [u64 1; u64 5] 8 handle__remill_read_8).
  - constructor.
  - reflexivity.
Defined.

Lemma plain_writes_bind_handle_or_null_witness :
  ∃ self' state',
    handle__remill_write_64 handler0 state0 7%nat
      [u64 1; u64 4194320; u64 305419896] = Some (self', state') ∧
    locals state' !! 7%nat = Some (u64 1).
Proof.
  apply (plain_writes_bind_handle_or_null handler0 state0 7%nat
           [u64 1; u64 4194320; u64 305419896] (u64 1) 1 4194320 305419896
           memory0 64 handle__remill_write_64); try reflexivity.
  do 2 constructor. constructor.
Defined.

Lemma write_32_binds_null_witness :
  locals (bindLocal 7%nat (createPointer 0) state0) !! 7%nat
  = Some (createPointer 0).
Proof.
  apply (write_32_binds_null handler0
           (LOG (LOG_ERROR "Failed 4-byte write")
              (set_memories
                 (<[1 := set_concrete (concrete memory0) memory0]>
                    (memories handler0)) handler0))
           state0 _ 7%nat [u64 1; u64 5; ConstantExpr 305419896 32]).
  reflexivity.
Defined.

Lemma symbolic_write_32_then_read_32_witness :
  ∃ self' state',
    handle__remill_write_32 handler0 state0 7%nat [u64 1; u64 4194320; x32]
      = Some (self', state') ∧
    handle__remill_read_32 self' state' 9%nat [u64 1; u64 4194320]
      = Some (self', bindLocal 9%nat x32 state').
Proof.
  apply (symbolic_write_32_then_read_32 handler0 state0 7%nat 9%nat
           (u64 1) (u64 4194320) x32 1 4194320 64 64 x32
           (ReadExpr "x" (ConstantExpr 3 32)) "x" memory0 x_object "x" ∅);
    reflexivity.
Defined.

(** [my_fstat(2^32 + 3, buf)] reaches the host as [fstat(3, buf)]. *)
Lemma fstat64_fills_cache_witness :
  ∃ self',
    handle__fstat64 handler0 state0 7%nat [u64 4294967299; u64 16384] =
      Some (self', bindLocal 7%nat (ConstantExpr 0 64) state0) ∧
    errno self' = 0 ∧
    fstat_vector self' = [2049; 77; 33188; 1; 1000; 1000; 0; 100; 4096; 8].
Proof.
  apply (fstat64_fills_cache handler0 state0 7%nat
           [u64 4294967299; u64 16384] 4294967299 16384 a_stat); reflexivity.
Defined.

Lemma get_fstat_index_reads_cache_witness :
  handle_get_fstat_index (set_fstat_vector [2049; 77] handler0) state0 8%nat
    [u64 1] =
  Some (set_fstat_vector [2049; 77] handler0,
        bindLocal 8%nat (ConstantExpr 77 64) state0).
Proof.
  apply (get_fstat_index_reads_cache (set_fstat_vector [2049; 77] handler0)
           state0 8%nat [u64 1] 1 77); reflexivity.
Defined.

Lemma stat_failure_sets_EFAULT_witness :
  handle__fstat64 handler0 state0 7%nat [u64 4; u64 16384] =
    Some (set_errno Host.EFAULT handler0,
          bindLocal 7%nat (ConstantExpr (all_ones 32) 32) state0) ∧
  handle__stat64 handler0 state0 7%nat [u64 4; u64 16384] =
    Some (set_errno Host.EFAULT handler0,
          bindLocal 7%nat (ConstantExpr (all_ones 32) 32) state0).
Proof.
  destruct (stat_failure_sets_EFAULT handler0 state0 7%nat
              [u64 4; u64 16384] 4 16384 eq_refl eq_refl) as [Hfstat Hstat].
  split; [apply Hfstat|apply Hstat]; reflexivity.
Defined.

Lemma stat64_keeps_cache_witness :
  fstat_vector (set_errno 0 handler0) = fstat_vector handler0.
Proof.
  apply (stat64_keeps_cache handler0 (set_errno 0 handler0) state0
           (bindLocal 7%nat (ConstantExpr 0 64) state0) 7%nat
           [u64 12288; u64 16384]).
  reflexivity.
Defined.

Lemma get_dirent_index_binds_type_witness :
  handle_get_dirent_index (set_dirent_entry a_dirent handler0) state0 8%nat
    [u64 0] =
  Some (set_dirent_entry a_dirent handler0,
        bindLocal 8%nat (ConstantExpr 8 64) state0).
Proof.
  apply (get_dirent_index_binds_type (set_dirent_entry a_dirent handler0)
           state0 8%nat [u64 0] 0); [reflexivity|constructor].
Defined.

Lemma my_readdir_caches_entry_witness :
  ∃ self',
    handle__my_readdir handler0 state0 7%nat [u64 20480] =
      Some (self', bindLocal 7%nat (ConstantExpr 1 1) state0) ∧
    dirent_entry self' = a_dirent.
Proof.
  apply (my_readdir_caches_entry handler0 state0 7%nat [u64 20480] 20480
           (Some a_dirent)
           {| Host.descriptors := Host.descriptors host0;
              Host.paths := Host.paths host0;
              Host.dir_streams := <[20480 := []]> (Host.dir_streams host0) |});
    reflexivity.
Defined.

(** C1, evaluated where the code departs from it. A symbolic 32-bit write
    at [0x400010] leaves an overlay object named [x] at that address. The
    32-bit read there binds the symbolic expression that was written; the
    8-, 16- and 64-bit reads at the same address bind a constant read from
    the concrete store (all zero bytes here), not the expression. *)
Lemma read_8_16_64_ignore_overlay :
  ('(self, state) ← symbolic_write 4194320;
   mem ← memories self !! 1;
   let arguments := [u64 1; u64 4194320] in
   Some (name ∘ fst <$> find_overlay (symbolic_memory mem) 4194320,
         bound 9%nat (handle__remill_read_32 self state 9%nat arguments),
         [ bound 9%nat (handle__remill_read_8 self state 9%nat arguments);
           bound 9%nat (handle__remill_read_16 self state 9%nat arguments);
           bound 9%nat (handle__remill_read_64 self state 9%nat arguments) ]))
  = Some (Some "x", Some x32,
          [ Some (ConstantExpr 0 8); Some (ConstantExpr 0 16);
            Some (ConstantExpr 0 64) ]).
Proof. by vm_compute. Qed.

(** C2, evaluated where the code departs from it. A 32-bit write of the
    constant [0x12345678] to the writable address [0x400010] through handle
    1 is performed (the value reads back) and yet binds a null pointer; the
    64-bit write of the same arguments binds the handle. *)
Lemma write_32_binds_null_on_success :
  ('(self, state) ← handle__remill_write_32 handler0 state0 7%nat
                      [u64 1; u64 4194320; ConstantExpr 305419896 32];
   Some (locals state !! 7%nat,
         bound 9%nat (handle__remill_read_32 self state 9%nat
                        [u64 1; u64 4194320])))
  = Some (Some (createPointer 0), Some (ConstantExpr 305419896 32)) ∧
  bound 7%nat (handle__remill_write_64 handler0 state0 7%nat
                 [u64 1; u64 4194320; ConstantExpr 305419896 64])
  = Some (u64 1).
Proof. split; by vm_compute. Qed.

(** C5, evaluated where the code departs from it. A successful [stat64]
    binds 0 and clears [errno] but leaves the cache as it was (empty here),
    so that the indexed getter has nothing to return; [fstat64] on the same
    file fills the ten fields. *)
Lemma stat64_leaves_cache_untouched :
  ('(self, state) ← handle__stat64 handler0 state0 7%nat
                      [u64 12288; u64 16384];
   Some (locals state !! 7%nat, errno self, fstat_vector self,
         bound 8%nat (handle_get_fstat_index self state 8%nat [u64 0])))
  = Some (Some (ConstantExpr 0 64), 0, [], None) ∧
  ('(self, state) ← handle__fstat64 handler0 state0 7%nat
                      [u64 3; u64 16384];
   Some (fstat_vector self,
         bound 8%nat (handle_get_fstat_index self state 8%nat [u64 0])))
  = Some ([2049; 77; 33188; 1; 1000; 1000; 0; 100; 4096; 8],
          Some (ConstantExpr 2049 64)).
Proof. split; by vm_compute. Qed.

(** C6, evaluated where the code departs from it. After a successful
    [my_readdir] that caches an entry with inode 77, offset 24, record
    length 32 and type 8, the indexed getter binds 8, the type, for each of
    the indices 0, 1, 2 and 3. *)
Lemma get_dirent_index_returns_type :
  ('(self, state) ← handle__my_readdir handler0 state0 7%nat [u64 20480];
   Some (locals state !! 7%nat, dirent_entry self,
         (λ i, bound 8%nat (handle_get_dirent_index self state 8%nat [u64 i]))
           <$> [0; 1; 2; 3]))
  = Some (Some (ConstantExpr 1 1), a_dirent,
          [ Some (ConstantExpr 8 64); Some (ConstantExpr 8 64);
            Some (ConstantExpr 8 64); Some (ConstantExpr 8 64) ]).
Proof. by vm_compute. Qed.

End BridgeSpec.

Module StreamSpec.
Import Stream.

Lemma skipws_length s : (String.length (skipws s) ≤ String.length s)%nat.
Proof. induction s as [|c s IH]; simpl; [lia|]. destruct (is_space c); simpl; lia. Qed.

Lemma strip_sign_length s :
  (String.length (strip_sign s).2 ≤ String.length s)%nat.
Proof.
  destruct s as [|c s]; simpl; [lia|].
  destruct (decide (c = "-"%char)) as [->|]; [simpl; lia|].
  destruct (decide (c = "+"%char)) as [->|]; [simpl; lia|].
  by destruct c as [[] [] [] [] [] [] [] []].
Qed.

Lemma strip_0x_length s : (String.length (strip_0x s) ≤ String.length s)%nat.
Proof.
  destruct s as [|c [|c' s]]; simpl; try lia.
  - by destruct c as [[] [] [] [] [] [] [] []].
  - destruct c as [[] [] [] [] [] [] [] []]; simpl; try lia;
      destruct c' as [[] [] [] [] [] [] [] []]; simpl; lia.
Qed.

(** A run of digits that is not empty leaves a shorter string. *)
Lemma hex_run_length s :
  (String.length (hex_run s).2 ≤ String.length s)%nat ∧
  ((hex_run s).1 ≠ Nil → (String.length (hex_run s).2 < String.length s)%nat).
Proof.
  induction s as [|c s [IHle IHlt]]; simpl; [done|].
  destruct (hex_digit c) as [d|] eqn:Hc; simpl; [|done].
  destruct (hex_run s) as [u rest']. simpl in *. split; intros; lia.
Qed.

(** A successful extraction consumes at least one character. *)
Lemma extract_hex_consumes s :
  ok (extract_hex s) = true →
  (String.length (rest (extract_hex s)) < String.length s)%nat.
Proof.
  unfold extract_hex.
  pose proof (skipws_length s) as Hws.
  pose proof (strip_sign_length (skipws s)) as Hsign.
  destruct (strip_sign (skipws s)) as [negative s1]. simpl in Hsign.
  pose proof (strip_0x_length s1) as Hprefix.
  destruct (hex_run_length (strip_0x s1)) as [_ Hrun].
  destruct (hex_run (strip_0x s1)) as [digits rest']. simpl in Hrun.
  destruct digits; simpl; [done|..];
    (case_decide; simpl; [intros _|done]);
    (assert (String.length rest' < String.length (strip_0x s1))%nat
       by (by apply Hrun)); lia.
Qed.

(** The fuel [decodeAndLiftMappings] gives the extraction loop, the length
    of what is left of the file, is enough: more fuel extracts the same
    addresses. *)
Theorem extract_all_hex_fuel (fuel : nat) (s : string) :
  (String.length s ≤ fuel)%nat →
  extract_all_hex fuel s = extract_all_hex (String.length s) s.
Proof.
  revert s. induction fuel as [fuel IH] using lt_wf_ind. intros s Hfuel.
  destruct fuel as [|fuel].
  { by replace (String.length s) with 0%nat by lia. }
  destruct (String.length s) as [|n] eqn:Hlen.
  { destruct s; [|done]. reflexivity. }
  simpl. pose proof (extract_hex_consumes s) as Hconsume.
  destruct (ok (extract_hex s)); [|done]. f_equal.
  specialize (Hconsume eq_refl).
  rewrite (IH fuel) by lia. rewrite (IH n) by lia. reflexivity.
Qed.

(** Appending to a string literal, one character at a time. *)
Ltac unfold_literal_prefix :=
  repeat match goal with
         | |- context [String.append (String ?c ?a) ?x] =>
             change (String.append (String c a) x)
               with (String c (String.append a x))
         | |- context [String.append EmptyString ?x] =>
             change (String.append EmptyString x) with x
         end.

Lemma hex_run_string_of_uint (d : uint) :
  hex_run (NilEmpty.string_of_uint d) = (d, "").
Proof. induction d; simpl; by rewrite ?IHd. Qed.

Lemma before_dash_string_of_uint (d : uint) (s : string) :
  before_dash (NilEmpty.string_of_uint d +:+ String "-" s) =
  NilEmpty.string_of_uint d.
Proof. induction d; simpl; by rewrite ?IHd. Qed.

(** What [<< std::hex] writes for a 64-bit value, [>> std::hex] reads back,
    with or without the [0x] in front, up to a dash or the end. *)
Lemma extract_hex_insert_hex (v : Z) (s : string) :
  0 ≤ v ≤ all_ones 64 →
  before_dash ("0x" +:+ (insert_hex v +:+ String "-" s))
    = "0x" +:+ insert_hex v ∧
  extract_hex ("0x" +:+ insert_hex v) =
    {| value := v; ok := true; rest := "" |}.
Proof.
  intros Hv. unfold insert_hex.
  pose proof (HexadecimalN.Unsigned.of_to (Z.to_N v)) as Hback.
  assert (∃ d, NilZero.string_of_uint (N.to_hex_uint (Z.to_N v)) =
               NilEmpty.string_of_uint d ∧ d ≠ Nil ∧
               N.of_hex_uint d = Z.to_N v) as (d & -> & Hd & Hvalue).
  { destruct (N.to_hex_uint (Z.to_N v)) as [|u|u|u|u|u|u|u|u|u|u|u|u|u|u|u|u]
      eqn:Hu; [exists (D0 Nil)|eexists; split; [reflexivity|]; by split ..].
    split; [done|]. split; [done|]. by rewrite <- Hback. }
  split; unfold_literal_prefix.
  - simpl. by rewrite before_dash_string_of_uint.
  - unfold extract_hex. simpl. rewrite hex_run_string_of_uint.
    destruct d; [done|..]; rewrite Hvalue, Z2N.id by lia;
      by rewrite decide_True by lia.
Qed.

Lemma skip_sign_string_of_uint (d : uint) :
  strip_sign (skipws (NilEmpty.string_of_uint d))
    = (false, NilEmpty.string_of_uint d).
Proof. by destruct d. Qed.

Lemma strip_0x_string_of_uint (d : uint) :
  strip_0x (NilEmpty.string_of_uint d) = NilEmpty.string_of_uint d.
Proof.
  destruct d as [|d|d|d|d|d|d|d|d|d|d|d|d|d|d|d|d]; try reflexivity.
  by destruct d.
Qed.

(** The same without the [0x]; the digits are not white space. *)
Lemma extract_hex_insert_hex_plain (v : Z) (s : string) :
  0 ≤ v ≤ all_ones 64 →
  before_dash (insert_hex v +:+ String "-" s) = insert_hex v ∧
  extract_hex (insert_hex v) = {| value := v; ok := true; rest := "" |} ∧
  skipws (insert_hex v) ≠ "".
Proof.
  intros Hv. unfold insert_hex.
  pose proof (HexadecimalN.Unsigned.of_to (Z.to_N v)) as Hback.
  assert (∃ d, NilZero.string_of_uint (N.to_hex_uint (Z.to_N v)) =
               NilEmpty.string_of_uint d ∧ d ≠ Nil ∧
               N.of_hex_uint d = Z.to_N v) as (d & -> & Hd & Hvalue).
  { destruct (N.to_hex_uint (Z.to_N v)) as [|u|u|u|u|u|u|u|u|u|u|u|u|u|u|u|u]
      eqn:Hu; [exists (D0 Nil)|eexists; split; [reflexivity|]; by split ..].
    split; [done|]. split; [done|]. by rewrite <- Hback. }
  split; [apply before_dash_string_of_uint|]. split.
  - unfold extract_hex.
    rewrite skip_sign_string_of_uint, strip_0x_string_of_uint,
      hex_run_string_of_uint.
    destruct d; [done|..]; rewrite Hvalue, Z2N.id by lia;
      by rewrite decide_True by lia.
  - by destruct d.
Qed.

Lemma extract_all_hex_fuel_witness :
  extract_all_hex 100 "400000 0x400010 zz" =
  extract_all_hex (String.length "400000 0x400010 zz") "400000 0x400010 zz".
Proof. apply (extract_all_hex_fuel 100 "400000 0x400010 zz"). simpl. lia. Defined.

End StreamSpec.

Module PreLifterSpec.
Import Klee Native PreLifter Instances.

Section Scan.
Context `{!KleeCore, !NativeMemory, !Remill}.

Lemma AddressSpace_eq (m1 m2 : AddressSpace) :
  concrete m1 = concrete m2 →
  symbolic_memory m1 = symbolic_memory m2 →
  aot_traces m1 = aot_traces m2 →
  m1 = m2.
Proof. destruct m1, m2; simpl; by intros -> -> ->. Qed.

Lemma load_entry_frame mem mem' ent :
  load_entry mem ent = Some mem' →
  concrete mem' = concrete mem ∧ symbolic_memory mem' = symbolic_memory mem.
Proof.
  destruct ent as [d_name module]. unfold load_entry.
  case_decide; [by intros [= <-]|].
  destruct (map_label d_name); [|done]. by intros [= <-].
Qed.

Lemma rehydrate_snoc dir ent mem :
  rehydrate (dir ++ [ent]) mem =
  scanned ← rehydrate dir mem; load_entry scanned ent.
Proof. unfold rehydrate. by rewrite foldl_app. Qed.

(** The scan touches the module table only. *)
Lemma rehydrate_frame dir mem mem' :
  rehydrate dir mem = Some mem' →
  concrete mem' = concrete mem ∧ symbolic_memory mem' = symbolic_memory mem.
Proof.
  revert mem'. induction dir as [|ent dir IH] using rev_ind; intros mem'.
  - by intros [= <-].
  - rewrite rehydrate_snoc.
    destruct (rehydrate dir mem) as [scanned|]; [|done]. simpl.
    intros [-> ->]%load_entry_frame. by apply IH.
Qed.

Lemma load_entry_lookup mem d_name module a :
  ¬ (d_name = "." ∨ d_name = "..") →
  map_label d_name = Some a →
  ∃ mem', load_entry mem (d_name, module) = Some mem' ∧
          aot_traces mem' !! FindRange_Name (concrete mem) a = Some module.
Proof.
  intros Hfile Hlabel. unfold load_entry.
  rewrite decide_False, Hlabel by done. simpl.
  eexists. split; [reflexivity|]. simpl. apply lookup_insert_eq.
Qed.

(** The scan returns exactly on the directories whose file names all give
    [map_label] a value. *)
Lemma rehydrate_is_Some dir mem :
  is_Some (rehydrate dir mem) ↔ scannable dir.
Proof.
  unfold scannable.
  induction dir as [|[d_name module] dir IH] using rev_ind.
  - split; [constructor|by eexists].
  - rewrite rehydrate_snoc, Forall_app, Forall_singleton, <- IH. simpl.
    destruct (rehydrate dir mem) as [scanned|]; simpl.
    + unfold load_entry.
      destruct (decide (d_name = "." ∨ d_name = "..")) as [Hdot|Hfile].
      * split; [|by eexists]. intros _. split; [by eexists|tauto].
      * destruct (map_label d_name) as [a|]; simpl.
        -- split; [|by eexists]. intros _. split; by eauto.
        -- split; [by intros [? ?]|].
           intros [_ [?|[?|[? ?]]]]; [tauto..|done].
    + split; [by intros [? ?]|]. by intros [[? ?] _].
Qed.

(** After the scan, a region name maps to the module of the last entry
    filed under it, and to what it mapped to before when there is none. *)
Lemma rehydrate_lookup dir mem mem' page_name :
  rehydrate dir mem = Some mem' →
  aot_traces mem' !! page_name =
  match list.last (filed_under (concrete mem) page_name dir) with
  | Some ent => Some ent.2
  | None => aot_traces mem !! page_name
  end.
Proof.
  revert mem'.
  induction dir as [|[d_name module] dir IH] using rev_ind; intros mem'.
  { by intros [= <-]. }
  rewrite rehydrate_snoc. unfold filed_under in *. rewrite list.filter_app.
  destruct (rehydrate dir mem) as [scanned|] eqn:Hscanned; [|done]. simpl.
  destruct (rehydrate_frame dir mem scanned Hscanned) as [Hstore _].
  specialize (IH scanned eq_refl). unfold load_entry.
  destruct (decide (d_name = "." ∨ d_name = "..")) as [Hdot|Hfile].
  - intros [= <-]. rewrite filter_cons_False by (simpl; tauto).
    rewrite filter_nil, app_nil_r. exact IH.
  - destruct (map_label d_name) as [a|] eqn:Hlabel; [|done]. simpl.
    intros [= <-]. simpl aot_traces. rewrite Hstore.
    destruct (decide (FindRange_Name (concrete mem) a = page_name))
      as [Hname|Hname].
    + rewrite filter_cons_True by (simpl; rewrite Hlabel, <- Hname; done).
      rewrite filter_nil, last_snoc. rewrite Hname. apply lookup_insert_eq.
    + rewrite filter_cons_False
        by (simpl; rewrite Hlabel; intros [_ [= ?]]; done).
      rewrite filter_nil, app_nil_r, lookup_insert_ne by done. exact IH.
Qed.

(** A second scan of the same directory changes nothing. *)
Lemma rehydrate_idempotent dir mem mem' :
  rehydrate dir mem = Some mem' → rehydrate dir mem' = Some mem'.
Proof.
  intros Hscan.
  destruct (proj2 (rehydrate_is_Some dir mem')) as [mem'' Hagain].
  { apply (rehydrate_is_Some dir mem). by eexists. }
  rewrite Hagain. f_equal.
  destruct (rehydrate_frame dir mem mem' Hscan) as [Hstore Hsym].
  destruct (rehydrate_frame dir mem' mem'' Hagain) as [Hstore' Hsym'].
  apply AddressSpace_eq; [done..|].
  apply map_eq; intros page_name.
  rewrite (rehydrate_lookup dir mem' mem'' page_name Hagain), Hstore.
  rewrite (rehydrate_lookup dir mem mem' page_name Hscan).
  by destruct (list.last _).
Qed.

(** What [<< std::hex] wrote in front of a dash, the scan reads back as the
    label, with the [0x] in front. *)
Lemma map_label_insert_hex (a : Z) (rest : string) :
  0 ≤ a ≤ all_ones 64 →
  map_label ("0x" +:+ (Stream.insert_hex a +:+ String "-" rest)) = Some a.
Proof.
  intros Ha. unfold map_label.
  destruct (StreamSpec.extract_hex_insert_hex a rest Ha) as [Hdash Hhex].
  cbv zeta. rewrite Hdash, Hhex. reflexivity.
Qed.

Lemma map_label_insert_hex_plain (a : Z) (rest : string) :
  0 ≤ a ≤ all_ones 64 →
  map_label (Stream.insert_hex a +:+ String "-" rest) = Some a.
Proof.
  intros Ha. unfold map_label.
  destruct (StreamSpec.extract_hex_insert_hex_plain a rest Ha)
    as (Hdash & Hhex & Hdigits).
  cbv zeta. rewrite Hdash, Hhex.
  by destruct (Stream.skipws (Stream.insert_hex a)).
Qed.

Lemma map_label_None (d_name : string) :
  map_label d_name = None ↔
  Stream.skipws (Stream.before_dash d_name) = "".
Proof.
  unfold map_label. cbv zeta.
  by destruct (Stream.skipws (Stream.before_dash d_name)).
Qed.

(** C10. The scan reads the label of a file from the hexadecimal address
    that leads its name: a name made of the digits of a 64-bit address,
    with or without [0x] in front, and a dash has that address as its
    label, whatever follows the dash; a name has no label exactly when
    nothing but white space stands before its first dash. In one round of the scan, an entry other than [.] and [..] whose
    name has a label has its module registered in [aot_traces] under the
    name [FindRange] gives for the label. The scan returns exactly when
    every file name has a label (a name with nothing before its first dash
    has none: the scan then reads a variable without a value). When it
    returns, every region name holds the module of the last entry filed
    under it (last load wins), and scanning the same directory a second
    time leaves the address space, and so the name-to-module table, as the
    first scan left it. *)
Theorem rehydrate_registers_by_region (dir : Directory) (mem : AddressSpace) :
  (∀ a rest, 0 ≤ a ≤ all_ones 64 →
     map_label ("0x" +:+ (Stream.insert_hex a +:+ String "-" rest))
       = Some a ∧
     map_label (Stream.insert_hex a +:+ String "-" rest) = Some a) ∧
  (∀ d_name, map_label d_name = None ↔
             Stream.skipws (Stream.before_dash d_name) = "") ∧
  (∀ d_name module a, ¬ (d_name = "." ∨ d_name = "..") →
     map_label d_name = Some a →
     ∃ mem', load_entry mem (d_name, module) = Some mem' ∧
             aot_traces mem' !! FindRange_Name (concrete mem) a
               = Some module) ∧
  (is_Some (rehydrate dir mem) ↔ scannable dir) ∧
  (∀ mem', rehydrate dir mem = Some mem' →
     (∀ page_name,
        aot_traces mem' !! page_name =
        match list.last (filed_under (concrete mem) page_name dir) with
        | Some ent => Some ent.2
        | None => aot_traces mem !! page_name
        end) ∧
     rehydrate dir mem' = Some mem').
Proof.
  split.
  { intros a rest Ha.
    split; [by apply map_label_insert_hex
           |by apply map_label_insert_hex_plain]. }
  split; [apply map_label_None|].
  split; [apply load_entry_lookup|].
  split; [apply rehydrate_is_Some|].
  intros mem' Hscan. split.
  - intros page_name. by apply rehydrate_lookup.
  - by apply (rehydrate_idempotent dir mem).
Qed.

End Scan.

(** C10 on a directory with two cache files of the [text] region and the
    standing entries around them. *)
Lemma rehydrate_registers_by_region_witness :
  let dir := [(".", []); ("0x400000-0x400020", [4194304]);
              ("..", []); ("0x400800-0x400900", [4196352])] in
  map_label "0x400000-0x400020" = Some 4194304 ∧
  (mem' ← load_entry memory0 ("0x400000-0x400020", [4194304]);
   aot_traces mem' !! "text") = Some [4194304] ∧
  (mem' ← rehydrate dir memory0; aot_traces mem' !! "text")
    = Some [4196352].
Proof.
  intros dir.
  destruct (rehydrate_registers_by_region dir memory0)
    as (Hparse & _ & Hone & Hsome & Hall).
  split; [|split].
  - refine (proj1 (Hparse 4194304 "0x400020" _)). by vm_compute.
  - destruct (Hone "0x400000-0x400020" [4194304] 4194304)
      as (mem' & Hload & Hlook).
    + intros [Hdot|Hdot]; discriminate Hdot.
    + reflexivity.
    + etrans; [|exact Hlook].
      exact (f_equal (λ r, m ← r; aot_traces m !! "text") Hload).
  - destruct (proj2 Hsome) as [mem' Hscan].
    { unfold scannable, dir.
      repeat (apply list.Forall_cons; split); simpl;
        [by left|right; right; by eexists|right; by left
        |right; right; by eexists|constructor]. }
    destruct (Hall mem' Hscan) as [Hlook _].
    rewrite Hscan. simpl. etrans; [apply (Hlook "text")|]. reflexivity.
Defined.

Section Batching.
Context `{!KleeCore, !NativeMemory, !Remill}.

Lemma emplace_batch_inv (P : Z → Prop) (before : list Worker) batch ws :
  Forall P batch →
  Forall (λ w, w ∈ before ∨ Forall P (traces w)) ws →
  Forall (λ w, w ∈ before ∨ Forall P (traces w)) (emplace_batch batch ws).
Proof.
  intros Hbatch Hws. destruct batch as [|a batch]; [done|].
  unfold emplace_batch. apply Forall_app. split; [done|].
  apply Forall_singleton. by right.
Qed.

Lemma batch_step_inv (P : Z → Prop) (before : list Worker) store b
    trace_address :
  P trace_address →
  batching_inv P before b →
  batching_inv P before (batch_step store b trace_address).
Proof.
  intros Ha [Hbatch Hws]. unfold batch_step, batching_inv.
  destruct (negb (IsSameMappedRange store trace_address (prev_base b)));
    simpl.
  - split; [by apply Forall_singleton|by apply emplace_batch_inv].
  - split; [|done]. apply Forall_app. split; [done|by apply Forall_singleton].
Qed.

Lemma batching_loop_inv (P : Z → Prop) (before : list Worker) store
    addresses b :
  Forall P addresses →
  batching_inv P before b →
  batching_inv P before (foldl (batch_step store) b addresses).
Proof.
  intros Haddresses. revert b.
  induction Haddresses as [|a addresses Ha _ IH]; intros b Hb; [done|].
  simpl. apply IH. by apply batch_step_inv.
Qed.

(** C4. Whatever memory map, decoder work list and trace map they are
    given, [RecursiveDescentPass] and [LinearSweepPass] return the work list
    and the trace map as they were passed in. The trace-list file is the
    only source of trace addresses: a worker that [decodeAndLiftMappings]
    adds exists only when the file was opened, and holds only addresses
    extracted from it. *)
Theorem discovery_passes_are_no_ops {MemoryMapPtr : Type} (map : MemoryMapPtr)
    (decoder_work_list : WorkList) (new_lifted_traces : TraceMap)
    (ws : Workspace) (self : t) :
  RecursiveDescentPass map decoder_work_list new_lifted_traces =
    (decoder_work_list, new_lifted_traces) ∧
  LinearSweepPass map decoder_work_list new_lifted_traces =
    (decoder_work_list, new_lifted_traces) ∧
  Forall (λ worker,
            worker ∈ workers self ∨
            ∃ content, TraceListPath ws = Opened content ∧
                       Forall (.∈ trace_addresses content) (traces worker))
    (workers (decodeAndLiftMappings ws self)).
Proof.
  split; [reflexivity|]. split; [reflexivity|].
  unfold decodeAndLiftMappings.
  destruct (TraceListPath ws) as [| |content] eqn:Hfile; simpl.
  1,2: apply list.Forall_forall; intros w Hw; left; exact Hw.
  pose proof (batching_loop_inv (.∈ trace_addresses content) (workers self)
                (concrete (memory self)) (trace_addresses content)
                {| prev_base := 0; trace_batch := [];
                   batch_workers := workers self |}) as [Hbatch Hws].
  - by apply list.Forall_forall.
  - split; simpl; [done|]. apply list.Forall_forall. intros w Hw. by left.
  - eapply list.Forall_impl;
      [apply emplace_batch_inv; [exact Hbatch|exact Hws]|].
    simpl. intros w [Hold|Hnew]; [by left|right; eauto].
Qed.

(** C3 (amended). When the trace-list file is missing, or is there but
    cannot be opened, [decodeAndLiftMappings] adds no worker and leaves the
    address space alone, and no discovery pass stands in for the file: a
    [preLift] that starts without workers lifts nothing and leaves the cache
    directory as it found (or created) it, and it returns when its closing
    scan does, that is when every file name of the directory has a label.
    A file that cannot be opened is reported by a [LOG(ERROR)]. *)
Theorem no_trace_list_no_batches (ws : Workspace) (self : t) :
  TraceListPath ws = NoFile ∨ TraceListPath ws = Unopenable →
  workers (decodeAndLiftMappings ws self) = workers self ∧
  memory (decodeAndLiftMappings ws self) = memory self ∧
  (TraceListPath ws = Unopenable →
     LOG_ERROR "cannot read the trace list file"
       ∈ log (decodeAndLiftMappings ws self)) ∧
  (workers self = [] →
     lift_workers (concrete (memory (decodeAndLiftMappings ws self)))
       (workers (decodeAndLiftMappings ws self))
       (TryCreateDirectory (prelift_traces ws))
       = Some ([], TryCreateDirectory (prelift_traces ws)) ∧
     (scannable (TryCreateDirectory (prelift_traces ws)) →
      ∃ self', preLift ws self =
                 Some ({| TraceListPath := TraceListPath ws;
                          prelift_traces :=
                            Some (TryCreateDirectory (prelift_traces ws)) |},
                       self') ∧
               workers self' = [])).
Proof.
  intros Hfile.
  assert (workers (decodeAndLiftMappings ws self) = workers self ∧
          memory (decodeAndLiftMappings ws self) = memory self)
    as [Hworkers Hmemory].
  { unfold decodeAndLiftMappings. by destruct Hfile as [-> | ->]. }
  split; [done|]. split; [done|]. split.
  - intros Hopen. unfold decodeAndLiftMappings. rewrite Hopen. simpl.
    apply elem_of_app. right. constructor.
  - intros Hnone. rewrite Hworkers, Hnone. split; [reflexivity|].
    intros Hscan. unfold preLift. cbv zeta. rewrite Hworkers, Hnone. simpl.
    apply (rehydrate_is_Some _ (memory (decodeAndLiftMappings ws self)))
      in Hscan as [mem' Hscan].
    rewrite Hscan. simpl. eauto.
Qed.

(** The address a worker's cache file is filed under is the first trace of
    its batch: [preLift] reads back from the file name what [LiftMapping]
    wrote into it. *)
Lemma map_label_cache_file_name (start end_ : Z) :
  0 ≤ start ≤ all_ones 64 →
  map_label (cache_file_name start end_) = Some start.
Proof.
  intros Hstart.
  change (cache_file_name start end_)
    with ("0x" +:+ (Stream.insert_hex start
                    +:+ String "-" ("0x" +:+ Stream.insert_hex end_))).
  by apply map_label_insert_hex.
Qed.

Lemma StoreModuleToFile_elem (module : LLVMModule) (file : string)
    (dir : Directory) :
  (file, module) ∈ StoreModuleToFile module file dir.
Proof.
  induction dir as [|[d_name content] dir IH]; simpl.
  - constructor.
  - case_decide as Hname; [rewrite Hname; constructor|by constructor].
Qed.

(** [LiftMapping] on a worker with traces returns and leaves the worker
    without traces. The module it leaves in the worker is the worker's
    module after every trace has been lifted into it, the last trace first,
    and the result has been optimised; that module is what it stores in the
    cache directory, under the name made of the first and the last trace,
    from which the scan reads the first trace back as the label. *)
Theorem LiftMapping_stores_module (store : ConcreteStore) (worker : Worker)
    (dir : Directory) (start end_ : Z) :
  head (traces worker) = Some start →
  list.last (traces worker) = Some end_ →
  0 ≤ start ≤ all_ones 64 →
  ∃ dir' module,
    module = OptimizeModule (foldl (Lift store) (map_semantics worker)
                               (reverse (traces worker))) ∧
    LiftMapping store worker dir =
      Some ({| traces := []; map_semantics := module |}, dir') ∧
    dir' = StoreModuleToFile module (cache_file_name start end_) dir ∧
    (cache_file_name start end_, module) ∈ dir' ∧
    map_label (cache_file_name start end_) = Some start.
Proof.
  intros Hhead Hlast Hstart. unfold LiftMapping.
  rewrite Hhead, Hlast. simpl.
  eexists _, _. split; [reflexivity|]. split; [reflexivity|].
  split; [reflexivity|]. split; [apply StoreModuleToFile_elem|].
  by apply map_label_cache_file_name.
Qed.

(** *** What the batching loop does with the addresses it reads *)

Lemma emplace_batch_snoc (batch : list Z) (ws : list Worker) :
  ∃ new, emplace_batch batch ws = ws ++ new ∧
         concat (traces <$> new) = batch ∧
         (new = [] ∧ batch = [] ∨ new = [new_worker batch] ∧ batch ≠ []).
Proof.
  destruct batch as [|a batch].
  - exists []. simpl. rewrite app_nil_r. auto.
  - exists [new_worker (a :: batch)]. simpl. rewrite app_nil_r. auto.
Qed.

(** The loop only appends workers, and the traces of the workers it has
    appended followed by the open batch are the addresses read so far. *)
Lemma batching_loop_appends (good : Worker → Prop) store addresses b :
  (∀ batch, batch ≠ [] → good (new_worker batch)) →
  ∃ new,
    batch_workers (foldl (batch_step store) b addresses)
      = batch_workers b ++ new ∧
    concat (traces <$> new)
      ++ trace_batch (foldl (batch_step store) b addresses)
      = trace_batch b ++ addresses ∧
    Forall good new.
Proof.
  intros Hgood. revert b.
  induction addresses as [|a addresses IH]; intros b.
  - exists []. simpl. by rewrite !app_nil_r.
  - simpl. destruct (IH (batch_step store b a)) as (new & Hws & Hflat & Hnew).
    rewrite Hws. revert Hflat. generalize (foldl (batch_step store)
                                            (batch_step store b a) addresses).
    intros b'. unfold batch_step.
    destruct (negb (IsSameMappedRange store a (prev_base b))); simpl;
      intros Hflat.
    + destruct (emplace_batch_snoc (trace_batch b) (batch_workers b))
        as (closed & -> & Hclosed & Hcases).
      exists (closed ++ new). rewrite <- (assoc_L (++)).
      split; [done|]. split.
      * rewrite fmap_app, concat_app, Hclosed, <- (assoc_L (++)).
        by rewrite Hflat.
      * apply Forall_app. split; [|done].
        destruct Hcases as [[-> _]|[-> Hne]]; [constructor|].
        apply Forall_singleton. by apply Hgood.
    + exists new. split; [done|]. split; [|done].
      by rewrite Hflat, <- (assoc_L (++)).
Qed.

Lemma decodeAndLiftMappings_appends (good : Worker → Prop) (ws : Workspace)
    (self : t) :
  (∀ batch, batch ≠ [] → good (new_worker batch)) →
  ∃ new, workers (decodeAndLiftMappings ws self) = workers self ++ new ∧
         Forall good new ∧
         concat (traces <$> new) =
           match TraceListPath ws with
           | Opened content => trace_addresses content
           | _ => []
           end.
Proof.
  intros Hgood. unfold decodeAndLiftMappings.
  destruct (TraceListPath ws) as [| |content].
  1,2: exists []; simpl; by rewrite app_nil_r.
  simpl.
  destruct (batching_loop_appends good (concrete (memory self))
              (trace_addresses content)
              {| prev_base := 0; trace_batch := [];
                 batch_workers := workers self |} Hgood)
    as (new & Hws & Hflat & Hnew).
  destruct (emplace_batch_snoc (trace_batch (foldl
              (batch_step (concrete (memory self)))
              {| prev_base := 0; trace_batch := [];
                 batch_workers := workers self |} (trace_addresses content)))
              (batch_workers (foldl
              (batch_step (concrete (memory self)))
              {| prev_base := 0; trace_batch := [];
                 batch_workers := workers self |} (trace_addresses content))))
    as (closed & -> & Hclosed & Hcases).
  rewrite Hws. simpl. exists (new ++ closed).
  rewrite <- (assoc_L (++)). split; [done|]. split.
  - apply Forall_app. split; [done|].
    destruct Hcases as [[-> _]|[-> Hne]]; [constructor|].
    apply Forall_singleton. by apply Hgood.
  - rewrite fmap_app, concat_app, Hclosed. exact Hflat.
Qed.

(** When the trace-list file opens, [decodeAndLiftMappings] keeps the
    workers it had and appends new ones whose traces, read one worker after
    the other, are the addresses of the file in the order of the file: no
    address is dropped, repeated or moved. No appended worker is without
    traces, each starts from the architecture's semantics module, and the
    address space is left alone. *)
Theorem batching_partitions_trace_list (ws : Workspace) (self : t)
    (content : string) :
  TraceListPath ws = Opened content →
  ∃ new,
    workers (decodeAndLiftMappings ws self) = workers self ++ new ∧
    concat (traces <$> new) = trace_addresses content ∧
    Forall (λ w, traces w ≠ [] ∧ map_semantics w = LoadArchSemantics) new ∧
    memory (decodeAndLiftMappings ws self) = memory self.
Proof.
  intros Hfile.
  destruct (decodeAndLiftMappings_appends
              (λ w, traces w ≠ [] ∧ map_semantics w = LoadArchSemantics)
              ws self) as (new & Hws & Hnew & Hflat); [done|].
  exists new. rewrite Hfile in Hflat. repeat split; try done.
  unfold decodeAndLiftMappings. by rewrite Hfile.
Qed.

(** A batch whose traces all lie in the mapped range of its base: the base
    is the batch's first address, or address 0 for a batch that was opened
    before any range check failed. *)
Lemma batch_step_range store b a :
  Forall (λ x, IsSameMappedRange store x (prev_base b) = true)
    (tail (trace_batch b)) →
  (head (trace_batch b) = Some (prev_base b) ∨
   Forall (λ x, IsSameMappedRange store x 0 = true) (trace_batch b)
   ∧ prev_base b = 0) →
  let b' := batch_step store b a in
  Forall (λ x, IsSameMappedRange store x (prev_base b') = true)
    (tail (trace_batch b')) ∧
  (head (trace_batch b') = Some (prev_base b') ∨
   Forall (λ x, IsSameMappedRange store x 0 = true) (trace_batch b')
   ∧ prev_base b' = 0).
Proof.
  intros Htail Hhead. unfold batch_step.
  destruct (IsSameMappedRange store a (prev_base b)) eqn:Hsame; simpl.
  - split.
    + destruct (trace_batch b) as [|x batch]; simpl in *; [constructor|].
      apply Forall_app. split; [done|]. by apply Forall_singleton.
    + destruct Hhead as [Hhead|[Hzero Hbase]].
      * left. destruct (trace_batch b); simpl in *; [done|exact Hhead].
      * right. split; [|done]. apply Forall_app. split; [done|].
        apply Forall_singleton. by rewrite <- Hbase.
  - split; [constructor|by left].
Qed.

Lemma batching_loop_ranges store addresses b (before : list Worker) :
  let in_range (batch : list Z) :=
    (∃ base, head batch = Some base ∧
             Forall (λ x, IsSameMappedRange store x base = true) (tail batch))
    ∨ Forall (λ x, IsSameMappedRange store x 0 = true) batch in
  Forall (λ x, IsSameMappedRange store x (prev_base b) = true)
    (tail (trace_batch b)) →
  (head (trace_batch b) = Some (prev_base b) ∨
   Forall (λ x, IsSameMappedRange store x 0 = true) (trace_batch b)
   ∧ prev_base b = 0) →
  Forall (λ w, w ∈ before ∨ in_range (traces w)) (batch_workers b) →
  let b' := foldl (batch_step store) b addresses in
  Forall (λ w, w ∈ before ∨ in_range (traces w))
    (emplace_batch (trace_batch b') (batch_workers b')).
Proof.
  intros in_range. revert b.
  assert (∀ b,
    Forall (λ x, IsSameMappedRange store x (prev_base b) = true)
      (tail (trace_batch b)) →
    (head (trace_batch b) = Some (prev_base b) ∨
     Forall (λ x, IsSameMappedRange store x 0 = true) (trace_batch b)
     ∧ prev_base b = 0) →
    Forall (λ w, w ∈ before ∨ in_range (traces w)) (batch_workers b) →
    Forall (λ w, w ∈ before ∨ in_range (traces w))
      (emplace_batch (trace_batch b) (batch_workers b))) as Hflush.
  { intros b Htail Hhead Hws. unfold emplace_batch.
    destruct (trace_batch b) as [|x batch] eqn:Hbatch; [done|].
    apply Forall_app. split; [done|]. apply Forall_singleton. right. simpl.
    destruct Hhead as [Hhead|[Hzero _]]; [left|by right].
    exists (prev_base b). by split. }
  induction addresses as [|a addresses IH]; intros b Htail Hhead Hws; simpl.
  - by apply Hflush.
  - destruct (batch_step_range store b a Htail Hhead) as [Htail' Hhead'].
    apply IH; [done..|].
    unfold batch_step.
    destruct (IsSameMappedRange store a (prev_base b)); simpl; [done|].
    by apply Hflush.
Qed.

(** Every worker that [decodeAndLiftMappings] appends holds addresses of
    one mapped range, as [IsSameMappedRange] sees it: all its traces after
    the first are in the range of the first. The one exception is a first
    batch opened while [prev_base] is still 0: its traces, the first among
    them, are those in the range of address 0. *)
Theorem batches_stay_in_one_range (ws : Workspace) (self : t) :
  Forall (λ w,
    w ∈ workers self ∨
    (∃ base, head (traces w) = Some base ∧
       Forall (λ x, IsSameMappedRange (concrete (memory self)) x base = true)
         (tail (traces w))) ∨
    Forall (λ x, IsSameMappedRange (concrete (memory self)) x 0 = true)
      (traces w))
    (workers (decodeAndLiftMappings ws self)).
Proof.
  unfold decodeAndLiftMappings.
  destruct (TraceListPath ws) as [| |content]; simpl.
  1,2: apply list.Forall_forall; intros w Hw; left; exact Hw.
  apply (batching_loop_ranges (concrete (memory self))
           (trace_addresses content)
           {| prev_base := 0; trace_batch := [];
              batch_workers := workers self |} (workers self)); simpl.
  - constructor.
  - right. split; [constructor|done].
  - apply list.Forall_forall. intros w Hw. by left.
Qed.

(** *** Running the workers *)







(** *** From the trace list to the module table *)






End Batching.

(** The trace list of [four_traces] is split into the three addresses of
    the [text] region and the one outside it. *)
Lemma batching_partitions_trace_list_witness :
  ∃ new,
    workers (decodeAndLiftMappings four_traces prelifter0) = [] ++ new ∧
    concat (traces <$> new) = [4194304; 4194320; 4194336; 5242880].
Proof.
  destruct (batching_partitions_trace_list four_traces prelifter0
              "TRACES 400000 400010 400020 500000" eq_refl)
    as (new & Hws & Hflat & _).
  exists new. split; [exact Hws|]. etrans; [exact Hflat|]. by vm_compute.
Defined.

(** A file whose name starts with a dash has no label: the scan, and with
    it [preLift], has no defined result on a directory that holds one. *)
Lemma scan_without_label :
  map_label "-y" = None ∧
  rehydrate [("-y", [])] memory0 = None ∧
  preLift {| TraceListPath := NoFile; prelift_traces := Some [("-y", [])] |}
    prelifter0 = None.
Proof. repeat split; reflexivity. Qed.




(** A worker with two traces: the second is lifted first, and the module
    is stored as [0x400000-0x400010]. *)
Lemma LiftMapping_stores_module_witness :
  ∃ dir' module,
    module = OptimizeModule (foldl (Lift (concrete memory0)) LoadArchSemantics
                               [4194320; 4194304]) ∧
    LiftMapping (concrete memory0) (new_worker [4194304; 4194320]) [] =
      Some ({| traces := []; map_semantics := module |}, dir') ∧
    dir' = StoreModuleToFile module (cache_file_name 4194304 4194320) [] ∧
    (cache_file_name 4194304 4194320, module) ∈ dir' ∧
    map_label (cache_file_name 4194304 4194320) = Some 4194304.
Proof.
  apply (LiftMapping_stores_module (concrete memory0)
           (new_worker [4194304; 4194320]) [] 4194304 4194320);
    [reflexivity|reflexivity|by vm_compute].
Defined.

(** The amended C3 on a workspace without a trace-list file. *)
Lemma no_trace_list_no_batches_witness :
  workers (decodeAndLiftMappings no_trace_list prelifter0) = [] ∧
  memory (decodeAndLiftMappings no_trace_list prelifter0) = memory0.
Proof.
  destruct (no_trace_list_no_batches no_trace_list prelifter0)
    as (Hworkers & Hmemory & _).
  - left. reflexivity.
  - split; [exact Hworkers|exact Hmemory].
Defined.

(** C3, as stated, fails on the code: without a trace-list file, over a
    memory with a mapped region, nothing is logged and no worker is made;
    [preLift] then finds only the standing entries in the cache directory,
    and no module is registered. *)
Lemma missing_trace_list_is_silent :
  decodeAndLiftMappings no_trace_list prelifter0 = prelifter0 ∧
  log prelifter0 = [] ∧
  workers prelifter0 = [] ∧
  ('(ws, self) ← preLift no_trace_list prelifter0;
   Some (prelift_traces ws, workers self, log self,
         map_to_list (aot_traces (memory self))))
  = Some (Some [(".", []); ("..", [])], [], [], []).
Proof. repeat split; reflexivity. Qed.

End PreLifterSpec.

Module InterceptsSpec.
Import Intercepts.

Lemma run_realloc {M} (a : TrackedAllocator M) memory ptr alloc_size :
  outcome (run a (Intercept_realloc (Some (ptr, alloc_size))) memory []) =
  realloc_dispatch (tracked_realloc_result a memory ptr alloc_size).
Proof.
  unfold Intercept_realloc, tracked_realloc_result.
  destruct (decide (ptr = 0)); simpl.
  - destruct (malloc_intercept a memory alloc_size); reflexivity.
  - destruct (realloc_intercept a memory ptr alloc_size); reflexivity.
Qed.

Lemma run_malloc {M} (a : TrackedAllocator M) memory alloc_size :
  alloc_size ≠ 0 →
  run a (Intercept_malloc (Some alloc_size)) memory [] =
  let '(ptr, memory') := malloc_intercept a memory alloc_size in
  {| outcome := if decide (ptr = kBadAddr) then ReturnMemory
                else if decide (ptr = kMallocTooBig) then ReturnMemory
                else SetReturn ptr;
     memory_after := memory';
     calls := [malloc_called alloc_size] |}.
Proof.
  intros Hsize. unfold Intercept_malloc.
  destruct (decide (alloc_size = 0)) as [|_]; [contradiction|]. simpl.
  destruct (malloc_intercept a memory alloc_size) as [ptr memory'].
  repeat case_decide; reflexivity.
Qed.

(** The five sentinels are pairwise distinct 64-bit values. *)
Lemma realloc_sentinels_distinct :
  NoDup [kBadAddr; kReallocInternalPtr; kReallocTooBig; kReallocInvalidPtr;
         kReallocFreedPtr].
Proof. apply (bool_decide_unpack _). by vm_compute. Qed.

(** C7. When the tracked allocator answers a realloc intercept with one of
    the four invalid-pointer sentinels (internal/displaced pointer, size too
    big, untracked pointer, freed pointer), the intercept ends in
    [klee_abort]; when it answers with the bad-address sentinel, the
    intercept returns the memory handle without setting a return value and
    without aborting (the real host allocator runs). *)
Theorem Intercept_realloc_sentinels {M} (a : TrackedAllocator M)
    (memory : M) (ptr alloc_size : Z) :
  let new_ptr := tracked_realloc_result a memory ptr alloc_size in
  let r := run a (Intercept_realloc (Some (ptr, alloc_size))) memory [] in
  (new_ptr ∈ [kReallocInternalPtr; kReallocTooBig; kReallocInvalidPtr;
              kReallocFreedPtr] → outcome r = klee_abort) ∧
  (new_ptr = kBadAddr → outcome r = ReturnMemory).
Proof.
  intros new_ptr r. subst r. rewrite run_realloc. fold new_ptr.
  split.
  - intros Hin.
    repeat (apply elem_of_cons in Hin as [->|Hin]); [by vm_compute ..|].
    by apply elem_of_nil in Hin.
  - intros ->. unfold realloc_dispatch. by rewrite decide_True.
Qed.

(** The intercept at each of the five sentinels, on an allocator that
    answers with it. *)
Lemma Intercept_realloc_sentinels_witness :
  outcome (run (fixed_allocator 0 kReallocFreedPtr true)
             (Intercept_realloc (Some (4096, 32))) () []) = klee_abort ∧
  outcome (run (fixed_allocator 0 kBadAddr true)
             (Intercept_realloc (Some (4096, 32))) () []) = ReturnMemory.
Proof.
  split.
  - apply (Intercept_realloc_sentinels
             (fixed_allocator 0 kReallocFreedPtr true) () 4096 32).
    apply (bool_decide_unpack _). by vm_compute.
  - apply (Intercept_realloc_sentinels
             (fixed_allocator 0 kBadAddr true) () 4096 32).
    reflexivity.
Defined.

(** C8, as stated, fails on the code: for a null pointer and a size the
    tracked [malloc_intercept] answers with its too-big sentinel, the malloc
    intercept returns the memory handle (host fallback) while the realloc
    intercept aborts; for size 0 the malloc intercept never reaches the
    allocator while the realloc intercept calls it; and a realloc of size 0
    on a non-null pointer reaches [realloc_intercept] where the free
    intercept reaches [free_intercept]. *)
Lemma realloc_null_is_not_malloc :
  let a := fixed_allocator kMallocTooBig 0 true in
  outcome (run a (Intercept_malloc (Some 16)) () []) = ReturnMemory ∧
  outcome (run a (Intercept_realloc (Some (0, 16))) () []) = klee_abort ∧
  calls (run a (Intercept_malloc (Some 0)) () []) = [] ∧
  calls (run a (Intercept_realloc (Some (0, 0))) () []) = [malloc_called 0] ∧
  calls (run a (Intercept_realloc (Some (4096, 0))) () []) =
    [realloc_called 4096 0] ∧
  calls (run a (Intercept_free (Some 4096)) () []) = [free_called 4096].
Proof. vm_compute. repeat split. Qed.

(** C8 (amended). A malloc intercept of size 0 sets a null return value
    without calling the tracked allocator. A realloc intercept with a null
    pointer and a non-zero size [n] runs exactly as the malloc intercept of
    size [n] whenever the tracked [malloc_intercept] does not answer with one
    of the four values realloc reads as invalid-pointer sentinels. A realloc
    intercept with a non-null pointer and size 0 makes one call,
    [realloc_intercept(memory, ptr, 0)], and never [free_intercept]; its
    outcome is decided by that call's answer. *)
Theorem allocator_degenerate_cases {M} (a : TrackedAllocator M) (memory : M) :
  run a (Intercept_malloc (Some 0)) memory [] =
    {| outcome := SetReturn 0; memory_after := memory; calls := [] |} ∧
  (∀ n : Z, n ≠ 0 →
     (malloc_intercept a memory n).1 ∉
       [kReallocInternalPtr; kReallocTooBig; kReallocInvalidPtr;
        kReallocFreedPtr] →
     run a (Intercept_realloc (Some (0, n))) memory [] =
     run a (Intercept_malloc (Some n)) memory []) ∧
  (∀ ptr : Z, ptr ≠ 0 →
     let r := run a (Intercept_realloc (Some (ptr, 0))) memory [] in
     calls r = [realloc_called ptr 0] ∧
     outcome r = realloc_dispatch (realloc_intercept a memory ptr 0).1 ∧
     memory_after r = (realloc_intercept a memory ptr 0).2).
Proof.
  split; [reflexivity|]. split.
  - intros n Hn Hnot. rewrite run_malloc by done.
    unfold Intercept_realloc. rewrite decide_True by done. simpl.
    destruct (malloc_intercept a memory n) as [p memory']. simpl in *.
    f_equal. unfold realloc_dispatch.
    destruct (decide (p = kBadAddr)); [done|].
    assert (p ≠ kReallocInternalPtr ∧ p ≠ kReallocTooBig ∧
            p ≠ kReallocInvalidPtr ∧ p ≠ kReallocFreedPtr)
      as (H1 & H2 & H3 & H4) by set_solver.
    rewrite (decide_False (P := p = kMallocTooBig)) by done.
    by rewrite !decide_False.
  - intros ptr Hptr r. subst r. unfold Intercept_realloc.
    rewrite decide_False by done. simpl.
    by destruct (realloc_intercept a memory ptr 0).
Qed.

(** The amended C8 on an allocator that answers every malloc with [8192]
    and every realloc with null. *)
Lemma allocator_degenerate_cases_witness :
  let a := fixed_allocator 8192 0 true in
  run a (Intercept_realloc (Some (0, 16))) () [] =
    run a (Intercept_malloc (Some 16)) () [] ∧
  calls (run a (Intercept_realloc (Some (4096, 0))) () []) =
    [realloc_called 4096 0].
Proof.
  intros a.
  destruct (allocator_degenerate_cases a ()) as (_ & Hnull & Hzero).
  split.
  - apply (Hnull 16); [lia|]. apply (bool_decide_unpack _). by vm_compute.
  - apply (Hzero 4096). lia.
Defined.

(** *** The other intercepts *)

Lemma run_calloc {M} (a : TrackedAllocator M) memory num size :
  wrap 64 (num * size) ≠ 0 →
  run a (Intercept_calloc (Some (num, size))) memory [] =
  let '(ptr, memory') := calloc_intercept a memory (wrap 64 (num * size)) in
  {| outcome := if decide (ptr = kBadAddr) then ReturnMemory
                else if decide (ptr = kMallocTooBig) then ReturnMemory
                else SetReturn ptr;
     memory_after := memory';
     calls := [calloc_called (wrap 64 (num * size))] |}.
Proof.
  intros Hsize. unfold Intercept_calloc. cbv zeta.
  destruct (decide (wrap 64 (num * size) = 0)) as [|_]; [contradiction|].
  simpl. destruct (calloc_intercept a memory _) as [ptr memory'].
  repeat case_decide; reflexivity.
Qed.

Lemma run_memalign {M} (a : TrackedAllocator M) memory alignment size :
  run a (Intercept_memalign (Some (alignment, size))) memory [] =
  let '(ptr, memory') := malloc_intercept a memory size in
  {| outcome := if decide (ptr = kBadAddr) then ReturnMemory
                else SetReturn ptr;
     memory_after := memory';
     calls := [malloc_called size] |}.
Proof.
  simpl. destruct (malloc_intercept a memory size) as [ptr memory'].
  by case_decide.
Qed.

Lemma run_free {M} (a : TrackedAllocator M) memory address :
  run a (Intercept_free (Some address)) memory [] =
  let '(ok, memory') := free_intercept a memory address in
  {| outcome := if ok then SetReturn 0 else ReturnMemory;
     memory_after := memory';
     calls := [free_called address] |}.
Proof.
  simpl. by destruct (free_intercept a memory address) as [[] memory'].
Qed.

Lemma realloc_dispatch_abort_or_not new_ptr v :
  realloc_dispatch new_ptr = SetReturn v →
  v = new_ptr ∧
  new_ptr ∉ [kBadAddr; kReallocInternalPtr; kReallocTooBig;
             kReallocInvalidPtr; kReallocFreedPtr].
Proof.
  unfold realloc_dispatch. repeat case_decide; try done.
  intros [= <-]. split; [done|].
  rewrite !elem_of_cons, elem_of_nil.
  intros [?|[?|[?|[?|[?|[]]]]]]; congruence.
Qed.

Lemma malloc_like_outcome (ptr v : Z) :
  (if decide (ptr = kBadAddr) then ReturnMemory
   else if decide (ptr = kMallocTooBig) then ReturnMemory
   else SetReturn ptr) = SetReturn v →
  v ≠ kBadAddr ∧ v ≠ kMallocTooBig.
Proof. repeat case_decide; try done. by intros [= <-]. Qed.

Lemma null_is_no_sentinel :
  0 ≠ kBadAddr ∧ 0 ≠ kMallocTooBig ∧
  0 ∉ [kBadAddr; kReallocInternalPtr; kReallocTooBig; kReallocInvalidPtr;
       kReallocFreedPtr].
Proof.
  split; [done|]. split; [done|]. apply (bool_decide_unpack _). by vm_compute.
Qed.

(** Only the realloc intercept can abort the simulated process: whatever
    the tracked allocator answers and whether or not the arguments could be
    read, the malloc, free, calloc and memalign intercepts end by setting a
    return value or by returning the memory handle. *)
Theorem only_realloc_aborts {M} (a : TrackedAllocator M) (memory : M)
    (size_arg address_arg : option Z) (calloc_args memalign_args : option (Z * Z)) :
  outcome (run a (Intercept_malloc size_arg) memory []) ≠ klee_abort ∧
  outcome (run a (Intercept_free address_arg) memory []) ≠ klee_abort ∧
  outcome (run a (Intercept_calloc calloc_args) memory []) ≠ klee_abort ∧
  outcome (run a (Intercept_memalign memalign_args) memory []) ≠ klee_abort.
Proof.
  repeat split.
  - destruct size_arg as [n|]; [|done].
    destruct (decide (n = 0)) as [->|Hn]; [done|].
    rewrite run_malloc by done.
    destruct (malloc_intercept a memory n). simpl. by repeat case_decide.
  - destruct address_arg as [p|]; [|done]. rewrite run_free.
    by destruct (free_intercept a memory p) as [[] ?].
  - destruct calloc_args as [[num size]|]; [|done].
    destruct (decide (wrap 64 (num * size) = 0)) as [Hz|Hnz].
    + unfold Intercept_calloc. cbv zeta. by rewrite decide_True.
    + rewrite run_calloc by done.
      destruct (calloc_intercept a memory _). simpl. by repeat case_decide.
  - destruct memalign_args as [[alignment size]|]; [|done].
    rewrite run_memalign.
    destruct (malloc_intercept a memory size). simpl. by case_decide.
Qed.

(** A sentinel is never handed to the program as a pointer by the malloc,
    calloc and realloc intercepts: the value they set as the return value is
    neither the bad-address nor the too-big sentinel and, for realloc, none
    of the five sentinels. *)
Theorem sentinels_are_not_returned {M} (a : TrackedAllocator M) (memory : M)
    (size_arg : option Z) (calloc_args realloc_args : option (Z * Z))
    (v : Z) :
  (outcome (run a (Intercept_malloc size_arg) memory []) = SetReturn v →
   v ≠ kBadAddr ∧ v ≠ kMallocTooBig) ∧
  (outcome (run a (Intercept_calloc calloc_args) memory []) = SetReturn v →
   v ≠ kBadAddr ∧ v ≠ kMallocTooBig) ∧
  (outcome (run a (Intercept_realloc realloc_args) memory []) = SetReturn v →
   v ∉ [kBadAddr; kReallocInternalPtr; kReallocTooBig; kReallocInvalidPtr;
        kReallocFreedPtr]).
Proof.
  destruct null_is_no_sentinel as (Hbad & Hbig & Hnull).
  split; [|split].
  - destruct size_arg as [n|]; [|by intros [= <-]].
    destruct (decide (n = 0)) as [->|Hn]; [by intros [= <-]|].
    rewrite run_malloc by done.
    destruct (malloc_intercept a memory n). apply malloc_like_outcome.
  - destruct calloc_args as [[num size]|]; [|by intros [= <-]].
    destruct (decide (wrap 64 (num * size) = 0)) as [Hz|Hnz].
    + unfold Intercept_calloc. cbv zeta. rewrite decide_True by done.
      by intros [= <-].
    + rewrite run_calloc by done.
      destruct (calloc_intercept a memory _). apply malloc_like_outcome.
  - destruct realloc_args as [[ptr size]|]; [|by intros [= <-]].
    rewrite run_realloc. intros Hout.
    by apply realloc_dispatch_abort_or_not in Hout as [-> ?].
Qed.

(** A tracked allocator that answers [malloc(16)] with [0x2000]: the
    intercept returns that pointer, which is no sentinel. *)
Lemma sentinels_are_not_returned_witness :
  8192 ≠ kBadAddr ∧ 8192 ≠ kMallocTooBig.
Proof.
  destruct (sentinels_are_not_returned (fixed_allocator 8192 0 true) ()
              (Some 16) None None 8192) as (Hmalloc & _).
  apply Hmalloc. reflexivity.
Defined.

(** The memalign intercept never looks at the alignment: it asks the
    tracked [malloc_intercept] for [size] bytes, also when [size] is 0. It
    runs like the malloc intercept for a non-zero size unless the allocator
    answers with its too-big sentinel, which malloc turns into a host
    fallback and memalign returns to the program as if it were a pointer. *)
Theorem memalign_is_unchecked_malloc {M} (a : TrackedAllocator M) (memory : M)
    (alignment alignment' size : Z) :
  Intercept_memalign (Some (alignment, size)) =
    Intercept_memalign (Some (alignment', size)) ∧
  calls (run a (Intercept_memalign (Some (alignment, size))) memory [])
    = [malloc_called size] ∧
  (size ≠ 0 → (malloc_intercept a memory size).1 ≠ kMallocTooBig →
   run a (Intercept_memalign (Some (alignment, size))) memory [] =
   run a (Intercept_malloc (Some size)) memory []) ∧
  ((malloc_intercept a memory size).1 = kMallocTooBig →
   outcome (run a (Intercept_memalign (Some (alignment, size))) memory [])
     = SetReturn kMallocTooBig).
Proof.
  split; [reflexivity|]. rewrite run_memalign.
  split; [by destruct (malloc_intercept a memory size)|]. split.
  - intros Hsize Hbig. rewrite run_malloc by done.
    destruct (malloc_intercept a memory size) as [ptr memory']. simpl in *.
    f_equal. case_decide; [done|]. by rewrite decide_False.
  - destruct (malloc_intercept a memory size) as [ptr memory']. simpl.
    intros ->. by rewrite decide_False.
Qed.

Lemma memalign_is_unchecked_malloc_witness :
  let a := fixed_allocator 8192 0 true in
  let big := fixed_allocator kMallocTooBig 0 true in
  run a (Intercept_memalign (Some (64, 16))) () [] =
    run a (Intercept_malloc (Some 16)) () [] ∧
  outcome (run big (Intercept_memalign (Some (64, 16))) () [])
    = SetReturn kMallocTooBig.
Proof.
  intros a big. split.
  - apply (memalign_is_unchecked_malloc a () 64 64 16); [lia|by vm_compute].
  - apply (memalign_is_unchecked_malloc big () 64 64 16). reflexivity.
Defined.

(** The calloc intercept multiplies in 64 bits without an overflow check.
    When [num * size] is 0 modulo [2^64] (a zero factor, or a product that
    overflows to zero) it sets a null return value and never reaches the
    tracked allocator; otherwise it makes one call, for the product modulo
    [2^64] bytes. *)
Theorem calloc_size_wraps {M} (a : TrackedAllocator M) (memory : M)
    (num size : Z) :
  ((num * size) `mod` 2 ^ 64 = 0 →
   run a (Intercept_calloc (Some (num, size))) memory [] =
     {| outcome := SetReturn 0; memory_after := memory; calls := [] |}) ∧
  ((num * size) `mod` 2 ^ 64 ≠ 0 →
   calls (run a (Intercept_calloc (Some (num, size))) memory []) =
     [calloc_called ((num * size) `mod` 2 ^ 64)]).
Proof.
  split; intros Hprod.
  - unfold Intercept_calloc. cbv zeta. by rewrite decide_True.
  - rewrite run_calloc by done. unfold wrap.
    by destruct (calloc_intercept a memory _).
Qed.

(** [calloc(2^32, 2^32)] overflows to a null result without a call, and
    [calloc(2^63 + 1, 2)] asks for two bytes. *)
Lemma calloc_size_wraps_witness :
  let a := fixed_allocator 8192 0 true in
  run a (Intercept_calloc (Some (2 ^ 32, 2 ^ 32))) () [] =
    {| outcome := SetReturn 0; memory_after := (); calls := [] |} ∧
  calls (run a (Intercept_calloc (Some (2 ^ 63 + 1, 2))) () []) =
    [calloc_called 2].
Proof.
  intros a. split.
  - apply (calloc_size_wraps a () (2 ^ 32) (2 ^ 32)). reflexivity.
  - apply (calloc_size_wraps a () (2 ^ 63 + 1) 2). by vm_compute.
Defined.

End InterceptsSpec.

Module DispatchSpec.
Import Dispatch.

Lemma handlerInfo_names_NoDup : NoDup (name <$> handlerInfo).
Proof. apply (bool_decide_unpack _). by vm_compute. Qed.

Lemma exit_is_the_only_doNotOverride :
  Forall (λ hi, doNotOverride hi = bool_decide (name hi = "exit")) handlerInfo.
Proof. apply (bool_decide_unpack _). by vm_compute. Qed.

Lemma overrides_ext (mod1 mod2 : LLVMModule) (hi : HandlerInfo) :
  mod1 !! name hi = mod2 !! name hi → overrides mod1 hi = overrides mod2 hi.
Proof. unfold overrides, getFunction. by intros ->. Qed.

Lemma overrides_filter_ext (mod1 mod2 : LLVMModule) (rows : list HandlerInfo) :
  (∀ hi, hi ∈ rows → overrides mod1 hi = overrides mod2 hi) →
  filter (λ hi, overrides mod1 hi = true) rows =
  filter (λ hi, overrides mod2 hi = true) rows.
Proof.
  induction rows as [|row rows IH]; intros Hsame; [done|].
  rewrite !filter_cons, (Hsame row) by constructor.
  rewrite IH; [done|]. intros hi Hhi. apply Hsame. by constructor.
Qed.

Lemma bind_step_lookup mod_ handlers hi n :
  bind_step mod_ handlers hi !! n =
  if decide (name hi = n) then
    if overrides mod_ hi then Some (handler hi, hasReturnValue hi)
    else handlers !! n
  else handlers !! n.
Proof.
  unfold bind_step, overrides.
  destruct (getFunction mod_ (name hi)) as [f|]; [|by case_decide].
  destruct (negb (doNotOverride hi) || isDeclaration f).
  - case_decide as Hn; [subst n; apply lookup_insert_eq|].
    by apply lookup_insert_ne.
  - by case_decide.
Qed.

(** The loop of [bind] over rows with distinct names: a name outside the
    rows keeps its entry, and a row's name gets the row's handler when the
    row overrides. *)
Lemma bind_loop rows mod_ :
  NoDup (name <$> rows) →
  ∀ handlers,
    (∀ n, n ∉ name <$> rows →
       foldl (bind_step mod_) handlers rows !! n = handlers !! n) ∧
    (∀ hi, hi ∈ rows →
       foldl (bind_step mod_) handlers rows !! name hi =
       if overrides mod_ hi then Some (handler hi, hasReturnValue hi)
       else handlers !! name hi).
Proof.
  induction rows as [|row rows IH]; intros Hnames handlers.
  - split; [done|]. by intros hi ?%elem_of_nil.
  - rewrite fmap_cons in Hnames. apply NoDup_cons in Hnames as [Hrow Hrows].
    destruct (IH Hrows (bind_step mod_ handlers row)) as [Hout Hin].
    simpl. split.
    + intros n [Hne Hn]%not_elem_of_cons.
      rewrite Hout, bind_step_lookup by done. by rewrite decide_False.
    + intros hi [->|Hhi]%elem_of_cons.
      * rewrite Hout, bind_step_lookup by done. by rewrite decide_True.
      * rewrite Hin, bind_step_lookup by done.
        rewrite decide_False; [done|]. intros Heq. apply Hrow.
        rewrite Heq. by apply list_elem_of_fmap_2.
Qed.

Lemma bind_lookup_row mod_ hi :
  hi ∈ handlerInfo →
  bind mod_ ∅ !! name hi =
  if overrides mod_ hi then Some (handler hi, hasReturnValue hi) else None.
Proof.
  intros Hhi.
  destruct (bind_loop handlerInfo mod_ handlerInfo_names_NoDup ∅) as [_ Hin].
  unfold bind. rewrite Hin by done. by destruct (overrides mod_ hi).
Qed.

Lemma bind_lookup_other mod_ n :
  n ∉ name <$> handlerInfo → bind mod_ ∅ !! n = None.
Proof.
  intros Hn.
  destruct (bind_loop handlerInfo mod_ handlerInfo_names_NoDup ∅) as [Hout _].
  unfold bind. by rewrite Hout.
Qed.

Lemma prepare_step_spec mod_ preserved hi :
  prepare_step (mod_, preserved) hi =
  if overrides mod_ hi then
    (<[name hi := {| isDeclaration := true;
                     NoReturn := doesNotReturn hi
                                 || from_option NoReturn false
                                      (mod_ !! name hi) |}]> mod_,
     preserved ++ [name hi])
  else (mod_, preserved).
Proof.
  unfold prepare_step, overrides, getFunction.
  destruct (mod_ !! name hi) as [[decl noret]|]; [|done]. simpl.
  destruct (doNotOverride hi), decl, (doesNotReturn hi); simpl; try done.
Qed.

Lemma prepare_step_frame mod_ preserved hi n :
  name hi ≠ n → (prepare_step (mod_, preserved) hi).1 !! n = mod_ !! n.
Proof.
  intros Hn. rewrite prepare_step_spec.
  destruct (overrides mod_ hi); [|done]. simpl. by apply lookup_insert_ne.
Qed.

(** The loop of [prepare] over rows with distinct names. *)
Lemma prepare_loop rows :
  NoDup (name <$> rows) →
  ∀ mod_ preserved,
    (foldl prepare_step (mod_, preserved) rows).2 =
      preserved ++ (name <$> filter (λ hi, overrides mod_ hi = true) rows) ∧
    (∀ n, n ∉ name <$> rows →
       (foldl prepare_step (mod_, preserved) rows).1 !! n = mod_ !! n) ∧
    (∀ hi, hi ∈ rows →
       (foldl prepare_step (mod_, preserved) rows).1 !! name hi =
       if overrides mod_ hi then
         Some {| isDeclaration := true;
                 NoReturn := doesNotReturn hi
                             || from_option NoReturn false
                                  (mod_ !! name hi) |}
       else mod_ !! name hi).
Proof.
  induction rows as [|row rows IH]; intros Hnames mod_ preserved.
  - simpl. rewrite app_nil_r. split; [done|]. split; [done|].
    by intros hi ?%elem_of_nil.
  - rewrite fmap_cons in Hnames. apply NoDup_cons in Hnames as [Hrow Hrows].
    change (foldl prepare_step (mod_, preserved) (row :: rows))
      with (foldl prepare_step (prepare_step (mod_, preserved) row) rows).
    destruct (prepare_step (mod_, preserved) row) as [mod1 preserved1] eqn:Hstep.
    assert (∀ n, name row ≠ n → mod1 !! n = mod_ !! n) as Hframe.
    { intros n Hn.
      by rewrite <- (prepare_step_frame mod_ preserved row n), Hstep. }
    assert (∀ hi, hi ∈ rows → overrides mod1 hi = overrides mod_ hi) as Hsame.
    { intros hi Hhi. apply overrides_ext, Hframe. intros Heq. apply Hrow.
      rewrite Heq. by apply list_elem_of_fmap_2. }
    destruct (IH Hrows mod1 preserved1) as (Hpres & Hout & Hin).
    rewrite prepare_step_spec in Hstep. split; [|split].
    + rewrite Hpres.
      assert (filter (λ hi, overrides mod1 hi = true) rows =
              filter (λ hi, overrides mod_ hi = true) rows) as ->.
      { by apply overrides_filter_ext. }
      destruct (overrides mod_ row) eqn:Hrow'; injection Hstep as <- <-.
      * rewrite filter_cons_True by done. rewrite fmap_cons.
        by rewrite <- (assoc_L (++)).
      * rewrite filter_cons_False by (by rewrite Hrow'). done.
    + intros n Hn. rewrite fmap_cons in Hn.
      apply not_elem_of_cons in Hn as [Hne Hn].
      rewrite Hout by done. by apply Hframe.
    + intros hi [->|Hhi]%elem_of_cons.
      * rewrite Hout by done.
        destruct (overrides mod_ row); injection Hstep as <- <-; [|done].
        apply lookup_insert_eq.
      * rewrite Hin, Hsame by done. rewrite Hframe; [done|].
        intros Heq. apply Hrow. rewrite Heq. by apply list_elem_of_fmap_2.
Qed.

Lemma prepare_rows mod_ :
  (prepare mod_ []).2 =
    name <$> filter (λ hi, overrides mod_ hi = true) handlerInfo ∧
  (∀ n, n ∉ name <$> handlerInfo → (prepare mod_ []).1 !! n = mod_ !! n) ∧
  (∀ hi, hi ∈ handlerInfo →
     (prepare mod_ []).1 !! name hi =
     if overrides mod_ hi then
       Some {| isDeclaration := true;
               NoReturn := doesNotReturn hi
                           || from_option NoReturn false
                                (mod_ !! name hi) |}
     else mod_ !! name hi).
Proof.
  unfold prepare.
  apply (prepare_loop handlerInfo handlerInfo_names_NoDup mod_ []).
Qed.

(** [prepare] and [bind] take the same rows. The names [prepare] reports
    as preserved are, in the order of the table, those of the rows that
    override a function of the module, and they are the functions [bind]
    gives a handler. [prepare] leaves each of them a declaration and
    touches no other function, and binding after [prepare] gives the
    handlers that binding before it would. *)
Theorem prepare_and_bind_agree (mod_ : LLVMModule) :
  (prepare mod_ []).2 =
    name <$> filter (λ hi, overrides mod_ hi = true) handlerInfo ∧
  (∀ n, n ∈ (prepare mod_ []).2 ↔ is_Some (bind mod_ ∅ !! n)) ∧
  (∀ n, n ∈ (prepare mod_ []).2 →
     ∃ f, (prepare mod_ []).1 !! n = Some f ∧ isDeclaration f = true) ∧
  (∀ n, n ∉ (prepare mod_ []).2 → (prepare mod_ []).1 !! n = mod_ !! n) ∧
  bind (prepare mod_ []).1 ∅ = bind mod_ ∅.
Proof.
  destruct (prepare_rows mod_) as (Hpres & Hout & Hin).
  assert (∀ n, n ∈ (prepare mod_ []).2 ↔
               ∃ hi, hi ∈ handlerInfo ∧ name hi = n ∧ overrides mod_ hi = true)
    as Hmem.
  { intros n. rewrite Hpres, list_elem_of_fmap. split.
    - intros (hi & -> & [Hov Hhi]%list_elem_of_filter). by exists hi.
    - intros (hi & Hhi & <- & Hov). exists hi. split; [done|].
      by apply list_elem_of_filter. }
  split; [done|]. split; [|split; [|split]].
  - intros n. rewrite Hmem. split.
    + intros (hi & Hhi & <- & Hov). by rewrite bind_lookup_row, Hov.
    + intros Hsome.
      destruct (decide (n ∈ name <$> handlerInfo)) as [Hn|Hn].
      * apply list_elem_of_fmap in Hn as (hi & -> & Hhi).
        exists hi. split; [done|]. split; [done|].
        rewrite bind_lookup_row in Hsome by done.
        destruct (overrides mod_ hi); [done|by destruct Hsome].
      * rewrite bind_lookup_other in Hsome by done. by destruct Hsome.
  - intros n (hi & Hhi & <- & Hov)%Hmem. rewrite Hin, Hov by done. eauto.
  - intros n Hn.
    destruct (decide (n ∈ name <$> handlerInfo)) as [Hrow|Hrow];
      [|by apply Hout].
    apply list_elem_of_fmap in Hrow as (hi & -> & Hhi).
    rewrite Hin by done.
    destruct (overrides mod_ hi) eqn:Hov; [|done].
    exfalso. apply Hn, Hmem. by exists hi.
  - apply map_eq. intros n.
    destruct (decide (n ∈ name <$> handlerInfo)) as [Hrow|Hrow].
    + apply list_elem_of_fmap in Hrow as (hi & -> & Hhi).
      rewrite !bind_lookup_row by done.
      assert (overrides (prepare mod_ []).1 hi = overrides mod_ hi) as ->;
        [|done].
      unfold overrides at 1. unfold getFunction. rewrite Hin by done.
      destruct (overrides mod_ hi) eqn:Hov.
      * simpl. by rewrite orb_true_r.
      * exact Hov.
    + by rewrite !bind_lookup_other.
Qed.

(** [handle] takes a call over exactly when the called function is in the
    module under a name of the table, with one exception: a program that
    defines [exit] itself keeps its own. Every other function of the table,
    [abort] and [malloc] among them, is taken over even when the program
    brings a definition. *)
Theorem handle_takes_over_all_but_defined_exit (mod_ : LLVMModule)
    (f : string) (use_empty : bool) :
  (handle (bind mod_ ∅) f use_empty).1 = true ↔
  ∃ fn, mod_ !! f = Some fn ∧ f ∈ name <$> handlerInfo ∧
        (f = "exit" → isDeclaration fn = true).
Proof.
  assert ((handle (bind mod_ ∅) f use_empty).1 = true
          ↔ is_Some (bind mod_ ∅ !! f)) as ->.
  { unfold handle. destruct (bind mod_ ∅ !! f) as [[h ret]|].
    - split; [by eauto|]. by destruct (negb ret && negb use_empty).
    - split; [done|]. by intros []. }
  destruct (decide (f ∈ name <$> handlerInfo)) as [Hrow|Hrow].
  - pose proof Hrow as Hfact.
    apply list_elem_of_fmap in Hrow as (hi & -> & Hhi).
    rewrite bind_lookup_row by done.
    pose proof exit_is_the_only_doNotOverride as Hexit.
    rewrite list.Forall_forall in Hexit. specialize (Hexit hi Hhi).
    unfold overrides, getFunction. rewrite Hexit.
    destruct (mod_ !! name hi) as [fn|].
    + destruct (bool_decide_reflect (name hi = "exit")) as [Hname|Hname];
        cbn [negb orb].
      * destruct (isDeclaration fn) eqn:Hdecl.
        -- split; [|by eauto]. intros _. exists fn. split; [done|].
           split; [exact Hfact|done].
        -- split; [by intros [? ?]|]. intros (fn' & [= <-] & _ & Hd).
           specialize (Hd Hname). congruence.
      * split; [|by eauto]. intros _. exists fn. split; [done|].
        split; [exact Hfact|]. intros Hexit'. by destruct Hname.
    + split; [by intros [? ?]|]. by intros (fn & ? & _).
  - rewrite bind_lookup_other by done. split; [by intros [? ?]|].
    by intros (fn & _ & ? & _).
Qed.

(** A call that [handle] takes over reaches the handler of the row of
    that name, unless the row's handler produces no value and the call's
    result is used: then the state is terminated with an execution error
    and the handler does not run. *)
Theorem handle_calls_the_handler_of_the_row (mod_ : LLVMModule)
    (hi : HandlerInfo) (use_empty : bool) :
  hi ∈ handlerInfo →
  overrides mod_ hi = true →
  handle (bind mod_ ∅) (name hi) use_empty =
    (true,
     if negb (hasReturnValue hi) && negb use_empty
     then terminateStateOnExecError
            "expected return value from void special function"
     else call (handler hi)).
Proof.
  intros Hhi Hov. unfold handle. rewrite bind_lookup_row, Hov by done.
  by destruct (negb (hasReturnValue hi) && negb use_empty).
Qed.

(** A declared [free] whose result is used. *)
Lemma handle_calls_the_handler_of_the_row_witness :
  handle (bind {[ "free" := {| isDeclaration := true; NoReturn := false |} ]}
            ∅) "free" false =
    (true, terminateStateOnExecError
             "expected return value from void special function").
Proof.
  apply (handle_calls_the_handler_of_the_row
           {[ "free" := {| isDeclaration := true; NoReturn := false |} ]}
           (add "free" "handleFree" false) false).
  - apply (list_elem_of_lookup_2 _ 10%nat). reflexivity.
  - reflexivity.
Defined.

(** Stepping an iterator from [begin] walks the rows of the table in
    order: after [k] steps, with [k] below [size], it stands on row [k],
    and after [size] steps it is [end_]. *)
Theorem iterator_walks_the_table (k : nat) :
  (k < size)%nat →
  Nat.iter k incr begin = {| base := Some handlerInfo; index := k |} ∧
  deref (Nat.iter k incr begin) = handlerInfo !! k ∧
  is_Some (deref (Nat.iter k incr begin)) ∧
  Nat.iter size incr begin = end_.
Proof.
  intros Hk.
  assert (Nat.iter k incr begin = {| base := Some handlerInfo; index := k |})
    as Hwalk.
  { induction k as [|k IH]; [done|].
    rewrite Nat.iter_succ, IH by lia. unfold incr. simpl.
    by rewrite decide_False by lia. }
  rewrite Hwalk. split; [done|]. split; [done|]. split; [|done].
  apply lookup_lt_is_Some_2. exact Hk.
Qed.

Lemma iterator_walks_the_table_witness :
  deref (Nat.iter 5 incr begin) =
    Some {| name := "exit"; handler := "handleExit"; doesNotReturn := true;
            hasReturnValue := false; doNotOverride := true |}.
Proof.
  destruct (iterator_walks_the_table 5) as (_ & Hrow & _).
  - unfold size. simpl. lia.
  - exact Hrow.
Defined.

End DispatchSpec.

Module KleemillSpec.
Import Klee Native SpecialFunctionHandler Kleemill Instances.

(** *** Counting bits *)

Lemma popcount_fold_bounds (x : Z) (l : list nat) :
  0 ≤ foldr (λ i n, Z.b2z (Z.testbit x (Z.of_nat i)) + n) 0 l
    ≤ Z.of_nat (length l).
Proof.
  induction l as [|i l IH]; simpl; [lia|].
  destruct (Z.testbit x (Z.of_nat i)); simpl; lia.
Qed.

Lemma popcount_fold_zero (x : Z) (l : list nat) :
  foldr (λ i n, Z.b2z (Z.testbit x (Z.of_nat i)) + n) 0 l = 0 ↔
  Forall (λ i, Z.testbit x (Z.of_nat i) = false) l.
Proof.
  induction l as [|i l IH]; simpl; [by split|].
  pose proof (popcount_fold_bounds x l) as Hbounds.
  rewrite list.Forall_cons, <- IH.
  destruct (Z.testbit x (Z.of_nat i)); simpl.
  - split; [lia|]. by intros [? _].
  - split; [intros ?; split; [done|lia]|]. intros [_ ?]. lia.
Qed.

Lemma popcount_fold_full (x : Z) (l : list nat) :
  foldr (λ i n, Z.b2z (Z.testbit x (Z.of_nat i)) + n) 0 l
    = Z.of_nat (length l) ↔
  Forall (λ i, Z.testbit x (Z.of_nat i) = true) l.
Proof.
  induction l as [|i l IH]; [by split|].
  pose proof (popcount_fold_bounds x l) as Hbounds.
  rewrite list.Forall_cons, <- IH. cbn [foldr length].
  destruct (Z.testbit x (Z.of_nat i)); cbn [Z.b2z].
  - split; [intros ?; split; [done|lia]|]. intros [_ ?]. lia.
  - split; [lia|]. by intros [? _].
Qed.

Lemma low_bits (P : bool → Prop) (x : Z) :
  Forall (λ i, P (Z.testbit x (Z.of_nat i))) (seq 0 32) ↔
  ∀ n, 0 ≤ n < 32 → P (Z.testbit x n).
Proof.
  rewrite list.Forall_forall. split.
  - intros Hbits n Hn. rewrite <- (Z2Nat.id n) by lia. apply Hbits.
    apply elem_of_seq. lia.
  - intros Hbits i Hi%elem_of_seq. apply Hbits. lia.
Qed.

Lemma builtin_popcount_bounds (x : Z) : 0 ≤ builtin_popcount x ≤ 32.
Proof.
  unfold builtin_popcount. cbv zeta.
  apply (popcount_fold_bounds (wrap 32 x) (seq 0 32)).
Qed.

Lemma builtin_popcount_zero (x : Z) :
  builtin_popcount x = 0 ↔ x `mod` 2 ^ 32 = 0.
Proof.
  unfold builtin_popcount, wrap. cbv zeta.
  rewrite popcount_fold_zero, (low_bits (λ b, b = false)). split.
  - intros Hbits. apply Z.bits_inj'. intros n Hn. rewrite Z.bits_0.
    destruct (decide (n < 32)) as [Hlow|Hhigh]; [apply Hbits; lia|].
    apply Z.mod_pow2_bits_high. lia.
  - intros -> n _. apply Z.bits_0.
Qed.

Lemma builtin_popcount_full (x : Z) :
  builtin_popcount x = 32 ↔ x `mod` 2 ^ 32 = 2 ^ 32 - 1.
Proof.
  unfold builtin_popcount, wrap. cbv zeta.
  change 32 with (Z.of_nat (length (seq 0 32))) at 2.
  rewrite popcount_fold_full, (low_bits (λ b, b = true)).
  change (2 ^ 32 - 1) with (Z.ones 32). split.
  - intros Hbits. apply Z.bits_inj'. intros n Hn.
    destruct (decide (n < 32)) as [Hlow|Hhigh].
    + rewrite Z.ones_spec_low by lia. apply Hbits. lia.
    + rewrite Z.ones_spec_high by lia. apply Z.mod_pow2_bits_high. lia.
  - intros -> n Hn. apply Z.ones_spec_low. lia.
Qed.

Section Regions.
Context `{!KleeCore, !NativeMemory, !NativeRegions}.

Lemma unique_uint_val state arguments i v :
  unique_uint state arguments i = Some v →
  ∃ e, unique_val state arguments i = Some e ∧ getZExtValue e = Some v.
Proof.
  unfold unique_uint, unique_val.
  destruct (arguments !! i) as [e|]; [|done]. simpl. eauto.
Qed.

(** [llvm.ctpop.i32] binds, as a 32-bit constant, the number of ones among
    the low 32 bits of its argument: a number from 0 to 32 that is 0 only
    for no bit set and 32 only for all of them, whatever the bits from 32
    up are. The handler leaves the address spaces alone. *)
Theorem ctpop_counts_the_low_32_bits (self : Handler)
    (state : ExecutionState) (target : nat) (arguments : list Expr)
    (pc_uint : Z) :
  unique_uint state arguments 0 = Some pc_uint →
  ∃ self' n,
    handle__llvm_ctpop self state target arguments =
      Some (self', bindLocal target (ConstantExpr n Int32) state) ∧
    memories self' = memories self ∧
    n = builtin_popcount (pc_uint `mod` 2 ^ 32) ∧
    0 ≤ n ≤ 32 ∧
    (n = 0 ↔ pc_uint `mod` 2 ^ 32 = 0) ∧
    (n = 32 ↔ pc_uint `mod` 2 ^ 32 = 2 ^ 32 - 1).
Proof.
  intros Hpc. unfold handle__llvm_ctpop. rewrite Hpc. simpl.
  pose proof (builtin_popcount_bounds pc_uint) as Hbounds.
  eexists _, (builtin_popcount pc_uint). split.
  - unfold ConstantExpr_create, wrap, Int32.
    rewrite (Z.mod_small (builtin_popcount pc_uint)); [reflexivity|lia].
  - split; [done|]. split.
    + unfold builtin_popcount, wrap. cbv zeta.
      by rewrite Z.mod_mod by lia.
    + split; [done|]. split.
      * apply builtin_popcount_zero.
      * apply builtin_popcount_full.
Qed.

(** The handlers that free, allocate and protect memory return whenever
    their arguments are constants and the handle names an address space,
    and always bind the handle they were given: no outcome of the region
    operation is reported. They replace that one address space, leave the
    others, and log nothing. *)
Theorem region_updates_return_the_handle (arity : nat)
    (handler : Handler → ExecutionState → nat → list Expr → Handled)
    (self : Handler) (state : ExecutionState) (target : nat)
    (arguments : list Expr) (mem_uint : Z) (mem : AddressSpace) :
  (arity, handler) ∈ region_updates →
  (∀ i, (i < arity)%nat → is_Some (unique_uint state arguments i)) →
  unique_uint state arguments 0 = Some mem_uint →
  memories self !! mem_uint = Some mem →
  ∃ self' mem' mem_val,
    handler self state target arguments =
      Some (self', bindLocal target mem_val state) ∧
    unique_val state arguments 0 = Some mem_val ∧
    getZExtValue mem_val = Some mem_uint ∧
    memories self' = <[mem_uint := mem']> (memories self) ∧
    log self' = log self.
Proof.
  intros Hin Hargs Hhandle Hmem.
  destruct (unique_uint_val _ _ _ _ Hhandle) as (mem_val & Hval & Hzext).
  unfold region_updates in Hin.
  repeat (apply elem_of_cons in Hin as [[= -> ->]|Hin]);
    [..|by apply elem_of_nil in Hin].
  - destruct (Hargs 1%nat) as [v1 Hv1]; [lia|].
    destruct (Hargs 2%nat) as [v2 Hv2]; [lia|].
    unfold handle__kleemill_free_memory.
    rewrite Hval. simpl. rewrite Hzext. simpl. rewrite Hv1. simpl.
    rewrite Hv2. simpl. rewrite Hmem. simpl.
    eexists _, _, _. by repeat split.
  - destruct (Hargs 1%nat) as [v1 Hv1]; [lia|].
    destruct (Hargs 2%nat) as [v2 Hv2]; [lia|].
    destruct (Hargs 3%nat) as [v3 Hv3]; [lia|].
    destruct (Hargs 4%nat) as [v4 Hv4]; [lia|].
    unfold handle__kleemill_allocate_memory.
    rewrite Hval. simpl. rewrite Hzext. simpl. rewrite Hv1. simpl.
    rewrite Hv2. simpl. rewrite Hv3. simpl. rewrite Hv4. simpl.
    rewrite Hmem. simpl.
    eexists _, _, _. by repeat split.
  - destruct (Hargs 1%nat) as [v1 Hv1]; [lia|].
    destruct (Hargs 2%nat) as [v2 Hv2]; [lia|].
    destruct (Hargs 3%nat) as [v3 Hv3]; [lia|].
    destruct (Hargs 4%nat) as [v4 Hv4]; [lia|].
    destruct (Hargs 5%nat) as [v5 Hv5]; [lia|].
    unfold handle__kleemill_protect_memory.
    rewrite Hval. simpl. rewrite Hzext. simpl. rewrite Hv1. simpl.
    rewrite Hv2. simpl. rewrite Hv3. simpl. rewrite Hv4. simpl.
    rewrite Hv5. simpl. rewrite Hmem. simpl.
    eexists _, _, _. by repeat split.
Qed.

(** The handlers that ask whether a byte can be read, can be written or is
    mapped only look: they return the handler object as it was and bind a
    one-bit constant, 0 or 1. *)
Theorem region_queries_only_look
    (handler : Handler → ExecutionState → nat → list Expr → Handled)
    (self : Handler) (state : ExecutionState) (target : nat)
    (arguments : list Expr) (mem_uint addr_uint : Z) (mem : AddressSpace) :
  handler ∈ region_queries →
  unique_uint state arguments 0 = Some mem_uint →
  unique_uint state arguments 1 = Some addr_uint →
  memories self !! mem_uint = Some mem →
  ∃ b : bool,
    handler self state target arguments =
      Some (self, bindLocal target (ConstantExpr (Z.b2z b) Bool) state).
Proof.
  intros Hin Hhandle Haddr Hmem. unfold region_queries in Hin.
  repeat (apply elem_of_cons in Hin as [->|Hin]);
    [..|by apply elem_of_nil in Hin].
  - unfold handle__kleemill_can_read_byte.
    rewrite Hhandle. simpl. rewrite Haddr. simpl. rewrite Hmem. simpl.
    exists (CanRead (concrete mem) addr_uint).
    by destruct (CanRead (concrete mem) addr_uint).
  - unfold handle__kleemill_can_write_byte.
    rewrite Hhandle. simpl. rewrite Haddr. simpl. rewrite Hmem. simpl.
    exists (CanWrite (concrete mem) addr_uint).
    by destruct (CanWrite (concrete mem) addr_uint).
  - unfold handle__kleemill_is_mapped_address.
    rewrite Hhandle. simpl. rewrite Haddr. simpl. rewrite Hmem. simpl.
    exists (IsMapped (concrete mem) addr_uint).
    by destruct (IsMapped (concrete mem) addr_uint).
Qed.

(** [__kleemill_find_unmapped_address] has no failure value of its own:
    when [FindHole] finds nothing it binds the 64-bit constant 0, which is
    also what it binds for a hole at address 0. It returns the handler
    object as it was. *)
Theorem find_unmapped_address_reports_no_hole_as_null (self : Handler)
    (state : ExecutionState) (target : nat) (arguments : list Expr)
    (mem_uint base_uint limit_uint size_uint : Z) (mem : AddressSpace) :
  unique_uint state arguments 0 = Some mem_uint →
  unique_uint state arguments 1 = Some base_uint →
  unique_uint state arguments 2 = Some limit_uint →
  unique_uint state arguments 3 = Some size_uint →
  memories self !! mem_uint = Some mem →
  ∃ hole,
    handle__kleemill_find_unmapped_address self state target arguments =
      Some (self, bindLocal target (ConstantExpr hole Int64) state) ∧
    0 ≤ hole < 2 ^ 64 ∧
    (FindHole (concrete mem) base_uint limit_uint size_uint = None →
       hole = 0) ∧
    (∀ found,
       FindHole (concrete mem) base_uint limit_uint size_uint = Some found →
       hole = found `mod` 2 ^ 64).
Proof.
  intros Hhandle Hbase Hlimit Hsize Hmem.
  unfold handle__kleemill_find_unmapped_address.
  rewrite Hhandle. simpl. rewrite Hbase. simpl. rewrite Hlimit. simpl.
  rewrite Hsize. simpl. rewrite Hmem. simpl.
  destruct (FindHole (concrete mem) base_uint limit_uint size_uint)
    as [found|].
  - exists (found `mod` 2 ^ 64). split; [reflexivity|].
    split; [apply Z.mod_pos_bound; lia|]. split; [done|].
    by intros ? [= <-].
  - exists 0. split; [reflexivity|]. split; [lia|]. split; [done|].
    by intros ? [=].
Qed.

End Regions.

(** [llvm.ctpop.i32] on [0xF0F0]: eight bits set. *)
Lemma ctpop_counts_the_low_32_bits_witness :
  ∃ self' n,
    handle__llvm_ctpop handler0 state0 7%nat [ConstantExpr 61680 32] =
      Some (self', bindLocal 7%nat (ConstantExpr n Int32) state0) ∧
    n = builtin_popcount (61680 `mod` 2 ^ 32).
Proof.
  destruct (ctpop_counts_the_low_32_bits handler0 state0 7%nat
              [ConstantExpr 61680 32] 61680 eq_refl)
    as (self' & n & Hrun & _ & Hn & _).
  exists self', n. split; [exact Hrun|exact Hn].
Defined.

(** [__kleemill_protect_memory(1, 0x400000, 4096, 1, 0, 0)]. *)
Lemma region_updates_return_the_handle_witness :
  ∃ self' mem' mem_val,
    handle__kleemill_protect_memory handler0 state0 7%nat
      [u64 1; u64 4194304; u64 4096; u64 1; u64 0; u64 0] =
      Some (self', bindLocal 7%nat mem_val state0) ∧
    getZExtValue mem_val = Some 1 ∧
    memories self' = <[1 := mem']> (memories handler0).
Proof.
  destruct (region_updates_return_the_handle 6
              handle__kleemill_protect_memory handler0 state0 7%nat
              [u64 1; u64 4194304; u64 4096; u64 1; u64 0; u64 0]
              1 memory0)
    as (self' & mem' & mem_val & Hrun & _ & Hzext & Hmems & _).
  - unfold region_updates. do 2 right. left.
  - intros i Hi. do 6 (destruct i as [|i]; [by eexists|]). lia.
  - reflexivity.
  - reflexivity.
  - exists self', mem', mem_val. by repeat split.
Defined.

(** [__kleemill_can_read_byte(1, 0x400000)]. *)
Lemma region_queries_only_look_witness :
  ∃ b : bool,
    handle__kleemill_can_read_byte handler0 state0 7%nat
      [u64 1; u64 4194304] =
      Some (handler0, bindLocal 7%nat (ConstantExpr (Z.b2z b) Bool) state0).
Proof.
  apply (region_queries_only_look handle__kleemill_can_read_byte handler0
           state0 7%nat [u64 1; u64 4194304] 1 4194304 memory0).
  - unfold region_queries. left.
  - reflexivity.
  - reflexivity.
  - reflexivity.
Defined.

(** A search for 4096 free bytes below [0x401000], where the [text]
    region lies. *)
Lemma find_unmapped_address_reports_no_hole_as_null_witness :
  ∃ hole,
    handle__kleemill_find_unmapped_address handler0 state0 7%nat
      [u64 1; u64 4194304; u64 4198400; u64 4096] =
      Some (handler0, bindLocal 7%nat (ConstantExpr hole Int64) state0) ∧
    hole = 0.
Proof.
  destruct (find_unmapped_address_reports_no_hole_as_null handler0 state0
              7%nat [u64 1; u64 4194304; u64 4198400; u64 4096]
              1 4194304 4198400 4096 memory0)
    as (hole & Hrun & _ & Hnone & _); try reflexivity.
  exists hole. split; [exact Hrun|]. apply Hnone. reflexivity.
Defined.

End KleemillSpec.
